(** * A shallow embedding of the async world-access broker of bevy_malek_async

    Source: [src/src/lib.rs].

    The process-wide statics of the crate are

      - [ASYNC_ECS_WORLD_ACCESS : OnceLock<Mutex<Option<UnsafeWorldCell>>>]:
        the single gate slot, modelled as [gate : option WorldId] (the world
        whose cell is installed, [None] when the slot is empty; an
        uninitialised [OnceLock] behaves as an empty slot everywhere it is
        read);
      - [ASYNC_ECS_WAKER_LIST : OnceLock<Mutex<HashMap<WorldId, Vec<Waker>>>>]:
        the waiter registry, modelled as a [gmap WorldId (list TaskId)]
        (a waker is identified by the task it wakes; an uninitialised
        [OnceLock] behaves as the empty map).

    Every world carries the resource [AsyncEcsCounter(Arc<Mutex<Vec<WaitGroup>>>)].
    Its vector only ever holds clones of the wait group of the checkpoint
    that filled it (it is cleared before it is filled), so the number of
    outstanding clones the driver's [wg.wait()] waits for is the length of
    that vector: it is modelled by [w_tickets : nat], with [Vec::pop] on an
    empty vector doing nothing.

    Closures receive the system parameter of the world: they may mutate the
    world's data directly, enqueue deferred commands (applied by
    [SystemState::apply]) and return a value of type [Out].

    Each mutex-protected section of the code is one atomic step; the host
    loop's driver ([run_async_ecs_accesses]) and the polls of the access
    futures by arbitrary executor threads interleave between those steps. *)

From Stdlib Require Import ZArith Lia.
From stdpp Require Import base gmap list.

Abbreviation WorldId := nat (only parsing).
Abbreviation TaskId := nat (only parsing).

(** The world, as far as the broker sees it: the data closures act on and
    the length of its [AsyncEcsCounter] ticket vector. *)
Record World := mkWorld { w_data : Z; w_tickets : nat }.

(** The shared statics. *)
Record St := mkSt {
  gate : option WorldId;
  waker_list : gmap WorldId (list TaskId);
  worlds : gmap WorldId World
}.

Definition set_gate (g : option WorldId) (s : St) : St :=
  mkSt g (waker_list s) (worlds s).
Definition set_waker_list (m : gmap WorldId (list TaskId)) (s : St) : St :=
  mkSt (gate s) m (worlds s).
Definition set_world (a : WorldId) (w : World) (s : St) : St :=
  mkSt (gate s) (waker_list s) (<[a := w]> (worlds s)).

Definition tickets_of (s : St) (a : WorldId) : nat :=
  match worlds s !! a with Some w => w_tickets w | None => 0 end.

(** Observable actions, one per effect of the source. *)
Inductive Ev :=
  | ERun (t : TaskId) (a : WorldId)        (* closure called on the gate's world *)
  | EApply (t : TaskId) (a : WorldId)      (* [system_state.apply] *)
  | EPop (t : TaskId) (a : WorldId)        (* a ticket popped from [a]'s counter *)
  | ERegister (t : TaskId) (b : WorldId)   (* waker pushed under world [b] *)
  | EOpen (a : WorldId)                    (* gate slot replaced by [a]'s cell *)
  | EDrain (a : WorldId) (ws : option (list TaskId)) (* [remove(&world_id)] *)
  | EReset (a : WorldId) (n : nat)         (* [tickets.clear()] then [n] pushes *)
  | EWake (t : TaskId)                     (* [waker.wake()] *)
  | EWaitBegin (a : WorldId) (k : nat)     (* [wg.wait()] entered, [k] tickets live *)
  | EWaitDone (a : WorldId)                (* [wg.wait()] returned *)
  | EClose (a : WorldId)                   (* gate slot taken *)
  | EStart (a : WorldId).                  (* host loop calls the driver on [a] *)

(** [Vec::push] onto the entry of [b], creating the entry when missing
    ([contains_key] / [insert(Vec::new())] / [get_mut(..).push(..)]). *)
Definition register_waker (b : WorldId) (t : TaskId)
    (m : gmap WorldId (list TaskId)) : gmap WorldId (list TaskId) :=
  let m1 := match m !! b with
            | Some _ => m
            | None => <[b := []]> m
            end in
  match m1 !! b with
  | Some l => <[b := l ++ [t]]> m1
  | None => m1
  end.

(** Deferred commands applied in order by [SystemState::apply]. *)
Definition apply_cmds (cmds : list (Z -> Z)) (d : Z) : Z :=
  fold_left (fun acc c => c acc) cmds d.

(** The checkpoint driver [run_async_ecs_accesses], one phase per atomic
    section of its body. *)
Inductive DPhase :=
  | D_Open                                  (* before the slot [replace] *)
  | D_Drain                                 (* before [remove(&world_id)] *)
  | D_Reset (ws : list TaskId)              (* before the ticket refill *)
  | D_Wake (ws : list TaskId) (n : nat)     (* waking the remaining [ws]; [n = num_wakers] *)
  | D_Wait                                  (* inside [wg.wait()] *)
  | D_Close                                 (* before the slot [take] *)
  | D_Done.

(** One step of the driver for world [a]. [None] means the driver cannot
    move: it is blocked in [wg.wait()] (tickets left), it panicked on an
    [unwrap], or it has returned. *)
Definition driver_step (a : WorldId) (ph : DPhase) (s : St)
    : option (DPhase * St * list Ev) :=
  match ph with
  | D_Open => Some (D_Drain, set_gate (Some a) s, [EOpen a])
  | D_Drain =>
      let m' := delete a (waker_list s) in
      match waker_list s !! a with
      | Some ws => Some (D_Reset ws, set_waker_list m' s, [EDrain a (Some ws)])
      | None => Some (D_Close, set_waker_list m' s, [EDrain a None])
      end
  | D_Reset ws =>
      match worlds s !! a with
      | Some w =>
          Some (D_Wake ws (length ws),
                set_world a (mkWorld (w_data w) (length ws)) s,
                [EReset a (length ws)])
      | None => None
      end
  | D_Wake (t :: ws) n => Some (D_Wake ws n, s, [EWake t])
  | D_Wake [] n =>
      if 0 <? n then Some (D_Wait, s, [EWaitBegin a (tickets_of s a)])
      else Some (D_Close, s, [])
  | D_Wait =>
      match worlds s !! a with
      | Some w => if w_tickets w =? 0 then Some (D_Close, s, [EWaitDone a]) else None
      | None => None
      end
  | D_Close =>
      match gate s with
      | Some _ => Some (D_Done, set_gate None s, [EClose a])
      | None => None
      end
  | D_Done => None
  end.

(** Running the driver alone, without interleaved polls. *)
Fixpoint drive (fuel : nat) (a : WorldId) (ph : DPhase) (s : St)
    : DPhase * St * list Ev :=
  match fuel with
  | 0 => (ph, s, [])
  | S k =>
      match driver_step a ph s with
      | Some (ph', s', e) =>
          let '(ph'', s'', e') := drive k a ph' s' in (ph'', s'', e ++ e')
      | None => (ph, s, [])
      end
  end.

Section Broker.

Variable Out : Type.

(** A closure [FnOnce(P::Item) -> Out]: direct mutations of the world's
    data, deferred commands, and the returned value. *)
Definition Closure := Z -> Z * list (Z -> Z) * Out.

(** [SystemParamThing(_, _, Option<Func>, WorldId)]. *)
Record Fut := mkFut { fut_func : option Closure; fut_world : WorldId }.

Inductive PollRes := Ready (v : Out) | Pending.

(** [async_access(world_id, ecs_access)]: the future whose [.await] is the
    async function's result. *)
Definition async_access (world_id : WorldId) (ecs_access : Closure) : Fut :=
  mkFut (Some ecs_access) world_id.

(** [SystemParamThing::poll], for the task [t] whose waker is cloned.
    [None] is a panic (an [unwrap] on a missing value). *)
Definition poll (t : TaskId) (f : Fut) (s : St)
    : option (St * Fut * PollRes * list Ev) :=
  match gate s with
  | Some a =>
      match worlds s !! a, fut_func f with
      | Some w, Some c =>
          let '(d1, cmds, out) := c (w_data w) in
          let d2 := apply_cmds cmds d1 in
          let s' := set_world a (mkWorld d2 (Nat.pred (w_tickets w))) s in
          Some (s', mkFut None (fut_world f), Ready out,
                [ERun t a; EApply t a] ++
                match w_tickets w with 0 => [] | S _ => [EPop t a] end)
      | _, _ => None
      end
  | None =>
      Some (set_waker_list (register_waker (fut_world f) t (waker_list s)) s,
            f, Pending, [ERegister t (fut_world f)])
  end.

End Broker.

Arguments Fut {Out}.
Arguments mkFut {Out} _ _.
Arguments fut_func {Out} _.
Arguments fut_world {Out} _.
Arguments Ready {Out} _.
Arguments Pending {Out}.
Arguments poll {Out} _ _ _.
Arguments async_access {Out} _ _.

(** ** The interleaved system

    The host loop runs one driver at a time ([c_drv]); the access futures
    of the tasks ([c_futs], task [t] at index [t]) are polled by their
    executors at any moment, also spuriously, but never after they have
    returned [Ready] (then their closure slot is [None]). New tasks may be
    spawned at any moment. A task that is dropped is simply never polled
    again. *)
Section System.

Variable Out : Type.

Record Cfg := mkCfg {
  c_st : St;
  c_drv : option (WorldId * DPhase);
  c_futs : list (@Fut Out)
}.

Definition driver_idle (d : option (WorldId * DPhase)) : Prop :=
  match d with None => True | Some (_, D_Done) => True | Some _ => False end.

Inductive cstep : Cfg -> list Ev -> Cfg -> Prop :=
  | cs_start c a :
      driver_idle (c_drv c) ->
      cstep c [EStart a] (mkCfg (c_st c) (Some (a, D_Open)) (c_futs c))
  | cs_drv c a ph ph' s' evs :
      c_drv c = Some (a, ph) ->
      driver_step a ph (c_st c) = Some (ph', s', evs) ->
      cstep c evs (mkCfg s' (Some (a, ph')) (c_futs c))
  | cs_poll c t f f' s' r evs :
      c_futs c !! t = Some f ->
      is_Some (fut_func f) ->
      poll t f (c_st c) = Some (s', f', r, evs) ->
      cstep c evs (mkCfg s' (c_drv c) (<[t := f']> (c_futs c)))
  | cs_spawn c f :
      is_Some (fut_func f) ->
      cstep c [] (mkCfg (c_st c) (c_drv c) (c_futs c ++ [f])).

Inductive exec : Cfg -> list Ev -> Cfg -> Prop :=
  | exec_refl c : exec c [] c
  | exec_step c1 e1 c2 e2 c3 :
      cstep c1 e1 c2 -> exec c2 e2 c3 -> exec c1 (e1 ++ e2) c3.

(** Start of the process: the slot is empty, no waker is registered, and
    every world's [AsyncEcsCounter] is the empty vector of its [Default]. *)
Definition initial (c : Cfg) : Prop :=
  gate (c_st c) = None /\ waker_list (c_st c) = ∅ /\
  (forall a w, worlds (c_st c) !! a = Some w -> w_tickets w = 0) /\
  c_drv c = None.

Definition reachable (c : Cfg) : Prop :=
  exists c0 tr, initial c0 /\ exec c0 tr c.

End System.

Arguments mkCfg {Out} _ _ _.
Arguments c_st {Out} _.
Arguments c_drv {Out} _.
Arguments c_futs {Out} _.
Arguments cstep {Out} _ _ _.
Arguments exec {Out} _ _ _.
Arguments initial {Out} _.
Arguments reachable {Out} _.

(** Tickets popped from world [a]'s counter, and ticket pops by task [t]. *)
Definition is_pop_of (a : WorldId) (e : Ev) : bool :=
  match e with EPop _ b => Nat.eqb a b | _ => false end.
Fixpoint pops (a : WorldId) (tr : list Ev) : nat :=
  match tr with
  | [] => 0
  | e :: tr' => (if is_pop_of a e then 1 else 0) + pops a tr'
  end.
Definition is_pop_by (t : TaskId) (e : Ev) : bool :=
  match e with EPop u _ => Nat.eqb t u | _ => false end.
Fixpoint pops_by (t : TaskId) (tr : list Ev) : nat :=
  match tr with
  | [] => 0
  | e :: tr' => (if is_pop_by t e then 1 else 0) + pops_by t tr'
  end.

(** Closure calls by task [t]. *)
Definition is_run_by (t : TaskId) (e : Ev) : bool :=
  match e with ERun u _ => Nat.eqb t u | _ => false end.
Fixpoint runs_by (t : TaskId) (tr : list Ev) : nat :=
  match tr with
  | [] => 0
  | e :: tr' => (if is_run_by t e then 1 else 0) + runs_by t tr'
  end.

(** Every waiter entry of the registry is non-empty. *)
Definition entries_nonempty (m : gmap WorldId (list TaskId)) : Prop :=
  forall b l, m !! b = Some l -> l <> [].

(** The driver phases after the ticket refill: the counter is no longer
    touched by the driver from there on. *)
Definition after_refill (ph : DPhase) : Prop :=
  match ph with D_Wake _ _ | D_Wait | D_Close | D_Done => True | _ => False end.

(** Driver-side events, in the order the driver emits them. *)
Definition is_driver_ev (e : Ev) : bool :=
  match e with
  | EOpen _ | EDrain _ _ | EReset _ _ | EWake _ | EWaitBegin _ _
  | EWaitDone _ | EClose _ => true
  | _ => false
  end.
Definition driver_events (tr : list Ev) : list Ev :=
  List.filter is_driver_ev tr.

Definition no_start (tr : list Ev) : Prop := forall b, ~ In (EStart b) tr.

(** The steps of one checkpoint, as listed by the claims: open, drain the
    entry (if any), reset the counter to its size, wake in order, wait when
    it is non-empty ([k] tickets live when the wait begins), close. *)
Definition wait_part (a : WorldId) (n k : nat) : list Ev :=
  if 0 <? n then [EWaitBegin a k; EWaitDone a] else [].
Definition checkpoint_trace (a : WorldId) (entry : option (list TaskId)) (k : nat)
    : list Ev :=
  match entry with
  | None => [EOpen a; EDrain a None; EClose a]
  | Some ws =>
      [EOpen a; EDrain a (Some ws); EReset a (length ws)] ++ map EWake ws ++
      wait_part a (length ws) k ++ [EClose a]
  end.

(** What is left of [checkpoint_trace] from each phase. *)
Definition rest_ok (a : WorldId) (ph : DPhase) (l : list Ev) : Prop :=
  match ph with
  | D_Open => exists e k, l = checkpoint_trace a e k
  | D_Drain => exists e k, EOpen a :: l = checkpoint_trace a e k
  | D_Reset ws => exists k,
      l = EReset a (length ws) :: map EWake ws ++ wait_part a (length ws) k ++ [EClose a]
  | D_Wake ws n => exists k, l = map EWake ws ++ wait_part a n k ++ [EClose a]
  | D_Wait => l = [EWaitDone a; EClose a]
  | D_Close => l = [EClose a]
  | D_Done => l = []
  end.

Section Derived.

Variable Out : Type.

(** [k] polls of the same future that all return [Pending]. *)
Fixpoint poll_pending_n (k : nat) (t : TaskId) (f : @Fut Out) (s : St) : option St :=
  match k with
  | 0 => Some s
  | S k' =>
      match poll t f s with
      | Some (s', _, Pending, _) => poll_pending_n k' t f s'
      | _ => None
      end
  end.

(** How many tickets task [t] may still release: one while its closure has
    not run (or while no task [t] has been spawned yet), none after. *)
Definition task_budget (t : TaskId) (c : Cfg Out) : nat :=
  match c_futs c !! t with
  | Some f => match fut_func f with Some _ => 1 | None => 0 end
  | None => 1
  end.

(** The state invariant of reachable configurations. *)
Definition tickets_ok (c : Cfg Out) : Prop :=
  forall b w, worlds (c_st c) !! b = Some w ->
    w_tickets w = 0 \/
    (exists ws n, c_drv c = Some (b, D_Wake ws n) /\ w_tickets w <= n) \/
    c_drv c = Some (b, D_Wait).

Definition gate_ok (c : Cfg Out) : Prop :=
  match c_drv c with
  | None | Some (_, D_Open) | Some (_, D_Done) => gate (c_st c) = None
  | Some (a, _) => gate (c_st c) = Some a
  end.

Definition Inv (c : Cfg Out) : Prop := tickets_ok c /\ gate_ok c.

End Derived.

Arguments poll_pending_n {Out} _ _ _ _.
Arguments task_budget {Out} _ _.
Arguments tickets_ok {Out} _.
Arguments gate_ok {Out} _.
Arguments Inv {Out} _.

(** A schedule: which party takes the next atomic step. Running it is
    deterministic, and every run it produces is a run of [cstep]. *)
Inductive Act (Out : Type) :=
  | A_Start (a : WorldId)
  | A_Drv
  | A_Poll (t : TaskId)
  | A_Spawn (f : @Fut Out).
Arguments A_Start {Out} _.
Arguments A_Drv {Out}.
Arguments A_Poll {Out} _.
Arguments A_Spawn {Out} _.

Definition idleb (d : option (WorldId * DPhase)) : bool :=
  match d with None => true | Some (_, D_Done) => true | Some _ => false end.

Definition step_act {Out : Type} (act : Act Out) (c : Cfg Out)
    : option (list Ev * Cfg Out) :=
  match act with
  | A_Start a =>
      if idleb (c_drv c) then Some ([EStart a], mkCfg (c_st c) (Some (a, D_Open)) (c_futs c))
      else None
  | A_Drv =>
      match c_drv c with
      | Some (a, ph) =>
          match driver_step a ph (c_st c) with
          | Some (ph', s', evs) => Some (evs, mkCfg s' (Some (a, ph')) (c_futs c))
          | None => None
          end
      | None => None
      end
  | A_Poll t =>
      match c_futs c !! t with
      | Some f =>
          match fut_func f with
          | Some _ =>
              match poll t f (c_st c) with
              | Some (s', f', _, evs) => Some (evs, mkCfg s' (c_drv c) (<[t := f']> (c_futs c)))
              | None => None
              end
          | None => None
          end
      | None => None
      end
  | A_Spawn f =>
      match fut_func f with
      | Some _ => Some ([], mkCfg (c_st c) (c_drv c) (c_futs c ++ [f]))
      | None => None
      end
  end.

Fixpoint run_script {Out : Type} (acts : list (Act Out)) (c : Cfg Out)
    : option (list Ev * Cfg Out) :=
  match acts with
  | [] => Some ([], c)
  | act :: acts' =>
      match step_act act c with
      | Some (e1, c1) =>
          match run_script acts' c1 with
          | Some (e2, c2) => Some (e1 ++ e2, c2)
          | None => None
          end
      | None => None
      end
  end.

(** Concrete inputs. *)
Definition w0 : World := mkWorld 0 0.
Definition st_two_worlds : St := mkSt None ∅ (<[2 := w0]> {[1 := w0]}).
Definition incr : Closure Z := fun d => (d + 1, [], d + 1)%Z.
(** The gate holds world 1, which has one live ticket; world 2 is idle. *)
Definition st_gate1 : St := mkSt (Some 1) ∅ (<[2 := w0]> {[1 := mkWorld 0 1]}).

(** Start of the process with worlds 1 and 2 and no task. *)
Definition cfg0 : Cfg Z := mkCfg st_two_worlds None [].
(** Task 0 asks for world 1 before the checkpoint; the host loop then calls
    the driver on world 1. *)
Definition prefix1 : list (Act Z) := [A_Spawn (async_access 1 incr); A_Poll 0; A_Start 1].

(** After [prefix1]: the driver of world 1 is about to open the gate and
    task 0 waits under world 1. *)
Definition cfg_open1 : Cfg Z :=
  mkCfg (mkSt None {[1 := [0]]} (worlds st_two_worlds)) (Some (1, D_Open))
    [async_access 1 incr].
(** Five driver steps later: the driver waits for the one ticket of task 0. *)
Definition cfg_wait1 : Cfg Z :=
  mkCfg (set_world 1 (mkWorld 0 1) (mkSt (Some 1) ∅ (worlds st_two_worlds)))
    (Some (1, D_Wait)) [async_access 1 incr].


Example poll_closed_registers :
  poll 0 (mkFut (Some incr) 1) st_two_worlds
  = Some (mkSt None {[1 := [0]]} (worlds st_two_worlds), mkFut (Some incr) 1,
          Pending, [ERegister 0 1]).
Proof. reflexivity. Qed.

Example drive_empty :
  drive 10 1 D_Open st_two_worlds
  = (D_Done, st_two_worlds, [EOpen 1; EDrain 1 None; EClose 1]).
Proof. vm_compute. reflexivity. Qed.

(** ** Counting lemmas *)

Lemma pops_app (a : WorldId) (l1 l2 : list Ev) : pops a (l1 ++ l2) = pops a l1 + pops a l2.
Proof. induction l1 as [|e l1 IH]; simpl; [reflexivity|]. rewrite IH. lia. Qed.

Lemma pops_by_app (t : TaskId) (l1 l2 : list Ev) :
  pops_by t (l1 ++ l2) = pops_by t l1 + pops_by t l2.
Proof. induction l1 as [|e l1 IH]; simpl; [reflexivity|]. rewrite IH. lia. Qed.

Lemma driver_events_app (l1 l2 : list Ev) :
  driver_events (l1 ++ l2) = driver_events l1 ++ driver_events l2.
Proof. unfold driver_events. apply List.filter_app. Qed.

(** ** Polls of an access future *)

Lemma register_waker_same (b : WorldId) (t : TaskId) (m : gmap WorldId (list TaskId)) :
  register_waker b t m !! b = Some (default [] (m !! b) ++ [t]).
Proof.
  unfold register_waker. destruct (m !! b) as [l|] eqn:E.
  - rewrite E. by rewrite lookup_insert_eq.
  - rewrite lookup_insert_eq. by rewrite lookup_insert_eq.
Qed.

Lemma register_waker_other (b b' : WorldId) (t : TaskId) (m : gmap WorldId (list TaskId)) :
  b <> b' -> register_waker b t m !! b' = m !! b'.
Proof.
  intros Hne. unfold register_waker. destruct (m !! b) as [l|] eqn:E.
  - rewrite E. by rewrite lookup_insert_ne.
  - rewrite lookup_insert_eq. rewrite lookup_insert_ne by done.
    by rewrite lookup_insert_ne.
Qed.

(** C5: polled while the gate is closed, an access future pushes the
    caller's waker under its own world id and returns [Pending] without
    running its closure (the future is unchanged). The result depends on
    the gate at this poll only, so a later poll with the gate still closed
    (a spurious wakeup, or a task already registered) again returns
    [Pending]. *)
Theorem poll_closed_registers_waker (Out : Type) (t : TaskId) (f : @Fut Out) (s : St) :
  gate s = None ->
  exists s', poll t f s = Some (s', f, Pending, [ERegister t (fut_world f)]) /\
    waker_list s' !! fut_world f = Some (default [] (waker_list s !! fut_world f) ++ [t]) /\
    (forall b, b <> fut_world f -> waker_list s' !! b = waker_list s !! b) /\
    worlds s' = worlds s /\ gate s' = None.
Proof.
  intros Hg. unfold poll. rewrite Hg. eexists. split; [reflexivity|].
  unfold set_waker_list; simpl. split; [apply register_waker_same|].
  split; [intros b Hb; apply register_waker_other; congruence|]. auto.
Qed.

Lemma poll_closed_registers_waker_witness :
  gate st_two_worlds = None /\
  exists s', poll 0 (async_access 1 incr) st_two_worlds
             = Some (s', async_access 1 incr, Pending, [ERegister 0 1]) /\
    waker_list s' !! 1 = Some [0] /\
    (forall b, b <> 1 -> waker_list s' !! b = waker_list st_two_worlds !! b) /\
    worlds s' = worlds st_two_worlds /\ gate s' = None.
Proof.
  split; [reflexivity|].
  apply (poll_closed_registers_waker Z 0 (async_access 1 incr) st_two_worlds).
  reflexivity.
Defined.




(** C9: the value [async_access] resolves to is the value its closure
    returned on the data of the world in the gate, whatever [Out] holds
    (an error value included); and the broker adds no failure of its own:
    while the gate's world exists, a poll of a future whose closure has not
    run always yields either that value or [Pending] (with the future kept
    as it was, closure included). *)
Theorem async_access_returns_closure_value (Out : Type) (t : TaskId) (b : WorldId)
    (c : Closure Out) (s : St) :
  (forall s' f' v evs,
     poll t (async_access b c) s = Some (s', f', Ready v, evs) ->
     exists a w d1 cmds, gate s = Some a /\ worlds s !! a = Some w /\
       c (w_data w) = (d1, cmds, v)) /\
  ((forall a, gate s = Some a -> is_Some (worlds s !! a)) ->
   exists s' f' r evs, poll t (async_access b c) s = Some (s', f', r, evs) /\
     (r = Pending -> f' = async_access b c)).
Proof.
  split.
  - intros s' f' v evs Hp. unfold poll, async_access in Hp; simpl in Hp.
    destruct (gate s) as [a|] eqn:Hg; [|discriminate].
    destruct (worlds s !! a) as [w|] eqn:Hw; [|discriminate].
    destruct (c (w_data w)) as [[d1 cmds] o] eqn:Hc.
    inversion Hp; subst. exists a, w, d1, cmds. auto.
  - intros Hex. unfold poll, async_access; simpl.
    destruct (gate s) as [a|] eqn:Hg.
    + destruct (Hex a eq_refl) as [w Hw]. rewrite Hw.
      destruct (c (w_data w)) as [[d1 cmds] o].
      do 4 eexists. split; [reflexivity|]. discriminate.
    + do 4 eexists. split; [reflexivity|]. auto.
Qed.

(** ** Repeated registrations *)

Lemma poll_pending_n_closed (Out : Type) (k : nat) (t : TaskId) (f : @Fut Out) (s : St) :
  gate s = None ->
  exists s1, poll_pending_n k t f s = Some s1 /\ gate s1 = None /\
    worlds s1 = worlds s /\
    default [] (waker_list s1 !! fut_world f) =
      default [] (waker_list s !! fut_world f) ++ replicate k t.
Proof.
  revert s. induction k as [|k IH]; intros s Hg.
  - exists s. simpl. rewrite app_nil_r. auto.
  - destruct (poll_closed_registers_waker Out t f s Hg) as (s' & Hp & Hl & _ & Hw & Hg').
    simpl. rewrite Hp.
    destruct (IH s' Hg') as (s1 & H1 & Hg1 & Hw1 & Hl1).
    exists s1. split; [exact H1|]. split; [exact Hg1|]. split; [congruence|].
    rewrite Hl1, Hl. simpl. rewrite <- app_assoc. reflexivity.
Qed.

(** Only a poll by task [t] emits [EPop t _], and only once it resolves. *)
Lemma poll_pops_by (Out : Type) (t u : TaskId) (f f' : @Fut Out) (s s' : St)
    (r : PollRes Out) (evs : list Ev) :
  poll u f s = Some (s', f', r, evs) ->
  (pops_by t evs = 0 \/ (t = u /\ pops_by t evs <= 1 /\ fut_func f' = None)) /\
  (r = Pending -> f' = f /\ evs = [ERegister u (fut_world f)]).
Proof.
  intros Hp. unfold poll in Hp.
  destruct (gate s) as [a|].
  - destruct (worlds s !! a) as [w|]; [|discriminate].
    destruct (fut_func f) as [c|]; [|discriminate].
    destruct (c (w_data w)) as [[d1 cmds] o].
    inversion Hp; subst. split; [|discriminate].
    destruct (Nat.eq_dec t u) as [->|Hne].
    + right. split; [reflexivity|]. split; [|reflexivity].
      destruct (w_tickets w); simpl; rewrite ?Nat.eqb_refl; simpl; lia.
    + left. destruct (w_tickets w); simpl; [reflexivity|].
      destruct (Nat.eqb_spec t u); [congruence|reflexivity].
  - inversion Hp; subst. split; [left; reflexivity|]. auto.
Qed.

Lemma driver_step_no_pops (a : WorldId) (ph ph' : DPhase) (s s' : St) (evs : list Ev) (t : TaskId) :
  driver_step a ph s = Some (ph', s', evs) -> pops_by t evs = 0.
Proof.
  intros H. destruct ph as [| |ws|[|u ws] n| | |]; simpl in H;
    repeat match goal with
    | H : context [match ?x with _ => _ end] |- _ => destruct x
    end; inversion H; subst; reflexivity.
Qed.

Lemma cstep_task_budget (Out : Type) (t : TaskId) (c c' : Cfg Out) (e : list Ev) :
  cstep c e c' -> pops_by t e + task_budget t c' <= task_budget t c.
Proof.
  intros Hs. destruct Hs as [c0 a Hi | c0 a ph ph' s' evs Hd Hds
                           | c0 u f f' s' r evs Hf Hsome Hp | c0 f Hsome];
    unfold task_budget; simpl.
  - lia.
  - rewrite (driver_step_no_pops _ _ _ _ _ _ t Hds). lia.
  - destruct (poll_pops_by Out t u f f' _ s' r evs Hp) as [[H0|(-> & H1 & Hn)] _].
    + rewrite H0. destruct (Nat.eq_dec u t) as [->|Hne].
      * rewrite list_lookup_insert_eq by (eapply lookup_lt_Some; eauto).
        rewrite Hf. destruct Hsome as [cl Hcl]. rewrite Hcl.
        destruct (fut_func f'); lia.
      * rewrite list_lookup_insert_ne by congruence. lia.
    + rewrite list_lookup_insert_eq by (eapply lookup_lt_Some; eauto).
      rewrite Hf, Hn. destruct Hsome as [cl Hcl]. rewrite Hcl. lia.
  - destruct (c_futs c0 !! t) as [g|] eqn:Hg.
    + rewrite lookup_app_l by (eapply lookup_lt_Some; eauto). rewrite Hg. lia.
    + destruct ((c_futs c0 ++ [f]) !! t) as [g|] eqn:Hg2; [|lia].
      apply lookup_app_Some in Hg2 as [Hg2|[_ Hg2]]; [congruence|].
      apply list_lookup_singleton_Some in Hg2 as [_ <-].
      destruct Hsome as [cl ->]. lia.
Qed.

Lemma exec_task_budget (Out : Type) (t : TaskId) (c c' : Cfg Out) (tr : list Ev) :
  exec c tr c' -> pops_by t tr + task_budget t c' <= task_budget t c.
Proof.
  induction 1 as [c|c1 e1 c2 e2 c3 Hs He IH]; [simpl; lia|].
  pose proof (cstep_task_budget Out t _ _ _ Hs).
  rewrite pops_by_app. lia.
Qed.

(** C10: every poll while the gate is closed pushes one more copy of the
    caller's waker, with no deduplication: [k] such polls of one future
    (with [0 < k]) leave [k] more entries under its world, the next drain
    removes them all and the refill issues one ticket for each of them.
    Yet in any run a task pops at most one ticket, since it is never polled
    again once its closure has run. *)
Theorem closed_polls_not_deduplicated (Out : Type) (k : nat) (t : TaskId) (f : @Fut Out)
    (s : St) :
  gate s = None -> 0 < k ->
  (exists s1, poll_pending_n k t f s = Some s1 /\
     default [] (waker_list s1 !! fut_world f) =
       default [] (waker_list s !! fut_world f) ++ replicate k t /\
     (forall w, worlds s1 !! fut_world f = Some w ->
        exists s2 s3 evs2 evs3,
          driver_step (fut_world f) D_Drain s1 =
            Some (D_Reset (default [] (waker_list s !! fut_world f) ++ replicate k t), s2, evs2) /\
          driver_step (fut_world f)
            (D_Reset (default [] (waker_list s !! fut_world f) ++ replicate k t)) s2 =
            Some (D_Wake (default [] (waker_list s !! fut_world f) ++ replicate k t)
                    (length (default [] (waker_list s !! fut_world f)) + k), s3, evs3) /\
          tickets_of s3 (fut_world f) = length (default [] (waker_list s !! fut_world f)) + k)) /\
  (forall (c c' : Cfg Out) tr, exec c tr c' -> pops_by t tr <= 1).
Proof.
  intros Hg Hk. split.
  - destruct (poll_pending_n_closed Out k t f s Hg) as (s1 & H1 & _ & Hw1 & Hl1).
    exists s1. split; [exact H1|]. split; [exact Hl1|].
    intros w Hw. set (b := fut_world f) in *.
    set (l := default [] (waker_list s !! b)) in *.
    destruct (waker_list s1 !! b) as [l1|] eqn:E1.
    + simpl in Hl1. subst l1.
      unfold driver_step. rewrite E1.
      do 2 eexists. exists [EDrain b (Some (l ++ replicate k t))].
      eexists. split; [reflexivity|]. simpl. rewrite Hw.
      split; [rewrite length_app, length_replicate; reflexivity|].
      unfold tickets_of, set_world; simpl. rewrite lookup_insert_eq. simpl.
      reflexivity.
    + simpl in Hl1. destruct k; [lia|].
      destruct l; discriminate.
  - intros c c' tr He. pose proof (exec_task_budget Out t c c' tr He).
    unfold task_budget in H. destruct (c_futs c !! t) as [g|];
      [destruct (fut_func g)|]; lia.
Qed.

Lemma closed_polls_not_deduplicated_witness :
  gate st_two_worlds = None /\ 0 < 2 /\
  exists s1, poll_pending_n 2 0 (async_access 1 incr) st_two_worlds = Some s1 /\
     default [] (waker_list s1 !! 1) = default [] (waker_list st_two_worlds !! 1) ++ replicate 2 0 /\
     (forall w, worlds s1 !! 1 = Some w ->
        exists s2 s3 evs2 evs3,
          driver_step 1 D_Drain s1 =
            Some (D_Reset (default [] (waker_list st_two_worlds !! 1) ++ replicate 2 0), s2, evs2) /\
          driver_step 1 (D_Reset (default [] (waker_list st_two_worlds !! 1) ++ replicate 2 0)) s2 =
            Some (D_Wake (default [] (waker_list st_two_worlds !! 1) ++ replicate 2 0)
                    (length (default [] (waker_list st_two_worlds !! 1)) + 2), s3, evs3) /\
          tickets_of s3 1 = length (default [] (waker_list st_two_worlds !! 1)) + 2).
Proof.
  split; [reflexivity|]. split; [lia|].
  apply (closed_polls_not_deduplicated Z 2 0 (async_access 1 incr) st_two_worlds);
    [reflexivity|lia].
Defined.

(** C1 does not hold of the code: the gate is one process-wide slot, and a
    poll never compares the id of the world in it ([world_id], read from
    the cell) with the future's own world id. A future created for world 2,
    polled while world 1's window is open, runs its closure on world 1's
    data and pops world 1's only ticket. *)
Theorem other_world_future_runs_in_window :
  poll 0 (async_access 2 incr) st_gate1 =
  Some (mkSt (Some 1) ∅ (<[2 := w0]> {[1 := mkWorld 1 0]}), mkFut None 2, Ready 1%Z,
        [ERun 0 1; EApply 0 1; EPop 0 1]).
Proof. vm_compute. reflexivity. Qed.

(** ** The invariant of reachable configurations

    Outside the window of the driver's world, every ticket vector is empty;
    inside it the count never exceeds the number of woken waiters; and the
    gate holds exactly the driver's world from the open to the close. *)

Lemma exec_app (Out : Type) (c1 c2 c3 : Cfg Out) (t1 t2 : list Ev) :
  exec c1 t1 c2 -> exec c2 t2 c3 -> exec c1 (t1 ++ t2) c3.
Proof.
  induction 1 as [c|c1 e1 c2 e2 c4 Hs He IH]; intros H2; [exact H2|].
  rewrite <- app_assoc. econstructor; [exact Hs|]. apply IH, H2.
Qed.

Lemma initial_Inv (Out : Type) (c : Cfg Out) : initial c -> Inv c.
Proof.
  intros (Hg & _ & Ht & Hd). split.
  - intros b w Hw. left. eapply Ht; eauto.
  - unfold gate_ok. rewrite Hd. exact Hg.
Qed.

Lemma poll_effect (Out : Type) (u : TaskId) (f f' : @Fut Out) (s s' : St)
    (r : PollRes Out) (evs : list Ev) :
  poll u f s = Some (s', f', r, evs) ->
  gate s' = gate s /\
  (forall b, tickets_of s' b + pops b evs = tickets_of s b) /\
  (forall b w', worlds s' !! b = Some w' ->
     exists w, worlds s !! b = Some w /\ w_tickets w' <= w_tickets w) /\
  (forall b, ~ In (EStart b) evs) /\ driver_events evs = [].
Proof.
  intros Hp. unfold poll in Hp.
  destruct (gate s) as [a|] eqn:Hg.
  - destruct (worlds s !! a) as [w|] eqn:Hw; [|discriminate].
    destruct (fut_func f) as [c|]; [|discriminate].
    destruct (c (w_data w)) as [[d1 cmds] o].
    inversion Hp; subst; clear Hp. unfold set_world; simpl.
    split; [exact Hg|]. split; [|split; [|split]].
    + intros b. unfold tickets_of; simpl. destruct (Nat.eq_dec a b) as [<-|Hne].
      * rewrite lookup_insert_eq, Hw. simpl.
        destruct (w_tickets w); simpl; rewrite ?Nat.eqb_refl; simpl; lia.
      * rewrite lookup_insert_ne by done.
        destruct (w_tickets w); simpl; [lia|].
        destruct (Nat.eqb_spec b a); [congruence|]. simpl; lia.
    + intros b w' Hw'. destruct (Nat.eq_dec a b) as [<-|Hne].
      * rewrite lookup_insert_eq in Hw'. inversion Hw'; subst.
        exists w. split; [exact Hw|]. simpl. lia.
      * rewrite lookup_insert_ne in Hw' by done. exists w'. split; [exact Hw'|lia].
    + intros b. destruct (w_tickets w); simpl; intuition discriminate.
    + destruct (w_tickets w); reflexivity.
  - inversion Hp; subst; clear Hp. unfold set_waker_list; simpl.
    split; [exact Hg|]. split; [|split; [|split]].
    + intros b. simpl. unfold tickets_of; simpl. lia.
    + intros b w' Hw'. exists w'. split; [exact Hw'|lia].
    + intros b. simpl. intuition discriminate.
    + reflexivity.
Qed.

Lemma cstep_Inv (Out : Type) (c c' : Cfg Out) (e : list Ev) :
  cstep c e c' -> Inv c -> Inv c'.
Proof.
  intros Hs [Ht Hg].
  destruct Hs as [c0 a Hi | c0 a ph ph' s' evs Hd Hds
                 | c0 u f f' s' r evs Hf Hsome Hp | c0 f Hsome];
    unfold Inv, tickets_ok, gate_ok in *; simpl in *.
  - split.
    + intros b w Hw. left.
      destruct (Ht b w Hw) as [H|[(ws & n & Hd & _)|Hd]]; [exact H| |];
        rewrite Hd in Hi; contradiction.
    + destruct (c_drv c0) as [[? []]|]; try contradiction; exact Hg.
  - rewrite Hd in Ht, Hg.
    assert (Hz : forall b w, worlds (c_st c0) !! b = Some w ->
              (forall ws n, ph <> D_Wake ws n) -> ph <> D_Wait -> w_tickets w = 0).
    { intros b w Hw Hn1 Hn2.
      destruct (Ht b w Hw) as [H|[(ws & n & Hd' & _)|Hd']]; [exact H| |].
      - inversion Hd'; subst. exfalso; eapply Hn1; eauto.
      - inversion Hd'; subst. contradiction. }
    destruct ph as [| |ws|[|t ws] n| | |]; simpl in Hds.
    + inversion Hds; subst. split; [|reflexivity].
      intros b w Hw. left. eapply Hz; eauto; intros; discriminate.
    + destruct (waker_list (c_st c0) !! a); inversion Hds; subst;
        (split; [intros b w Hw; left; eapply Hz; eauto; intros; discriminate | exact Hg]).
    + destruct (worlds (c_st c0) !! a) as [w0'|] eqn:Hw0; inversion Hds; subst.
      split; [|exact Hg]. unfold set_world; simpl. intros b w Hw.
      destruct (Nat.eq_dec a b) as [<-|Hne].
      * rewrite lookup_insert_eq in Hw. inversion Hw; subst.
        right; left. exists ws, (length ws). simpl. split; [reflexivity|lia].
      * rewrite lookup_insert_ne in Hw by done. left.
        eapply Hz; eauto; intros; discriminate.
    + destruct (0 <? n) eqn:Hn; inversion Hds; subst.
      * split; [|exact Hg]. intros b w Hw.
        destruct (Ht b w Hw) as [H|[(ws' & n' & Hd' & Hle)|Hd']]; [left; exact H| |].
        -- inversion Hd'; subst. right; right. reflexivity.
        -- discriminate.
      * split; [|exact Hg]. intros b w Hw. left.
        destruct (Ht b w Hw) as [H|[(ws' & n' & Hd' & Hle)|Hd']]; [exact H| |].
        -- inversion Hd'; subst. apply Nat.ltb_ge in Hn. lia.
        -- discriminate.
    + inversion Hds; subst. split; [|exact Hg]. intros b w Hw.
      destruct (Ht b w Hw) as [H|[(ws' & n' & Hd' & Hle)|Hd']]; [left; exact H| |].
      * inversion Hd'; subst. right; left. exists ws, n'. auto.
      * discriminate.
    + destruct (worlds (c_st c0) !! a) as [w0'|] eqn:Hw0; [|discriminate].
      destruct (Nat.eqb_spec (w_tickets w0') 0) as [H0|H0]; inversion Hds; subst.
      split; [|exact Hg]. intros b w Hw. left.
      destruct (Nat.eq_dec a b) as [<-|Hne]; [congruence|].
      destruct (Ht b w Hw) as [H|[(ws' & n' & Hd' & Hle)|Hd']]; [exact H| |];
        inversion Hd'; congruence.
    + destruct (gate (c_st c0)); inversion Hds; subst.
      split; [|reflexivity]. intros b w Hw. left. eapply Hz; eauto; intros; discriminate.
    + discriminate.
  - destruct (poll_effect Out u f f' _ s' r evs Hp) as (Hg' & _ & Hw & _).
    split.
    + intros b w' Hw'. destruct (Hw b w' Hw') as (w & Hw0 & Hle).
      destruct (Ht b w Hw0) as [H|[(ws & n & Hd' & Hle')|Hd']].
      * left. lia.
      * right; left. exists ws, n. split; [exact Hd'|lia].
      * right; right. exact Hd'.
    + rewrite Hg'. exact Hg.
  - split; [exact Ht|exact Hg].
Qed.

Lemma exec_Inv (Out : Type) (c c' : Cfg Out) (tr : list Ev) :
  exec c tr c' -> Inv c -> Inv c'.
Proof.
  induction 1 as [c|c1 e1 c2 e2 c3 Hs He IH]; intros HI; [exact HI|].
  apply IH. eapply cstep_Inv; eauto.
Qed.

Lemma reachable_Inv (Out : Type) (c : Cfg Out) : reachable c -> Inv c.
Proof.
  intros (c0 & tr & Hi & He). eapply exec_Inv; [exact He|]. apply initial_Inv, Hi.
Qed.

Lemma reachable_exec (Out : Type) (c c' : Cfg Out) (tr : list Ev) :
  reachable c -> exec c tr c' -> reachable c'.
Proof.
  intros (c0 & tr0 & Hi & He) He'. exists c0, (tr0 ++ tr).
  split; [exact Hi|]. eapply exec_app; eauto.
Qed.

(** ** Schedules are runs *)

Lemma step_act_cstep (Out : Type) (act : Act Out) (c c' : Cfg Out) (e : list Ev) :
  step_act act c = Some (e, c') -> cstep c e c'.
Proof.
  intros H. destruct act as [a| |t|f]; simpl in H.
  - destruct (c_drv c) as [[b []]|] eqn:Hd; simpl in H; try discriminate;
      inversion H; subst; apply cs_start; rewrite Hd; exact I.
  - destruct (c_drv c) as [[a ph]|] eqn:Hd; [|discriminate].
    destruct (driver_step a ph (c_st c)) as [[[ph' s'] evs]|] eqn:Hs; [|discriminate].
    inversion H; subst. eapply cs_drv; eauto.
  - destruct (c_futs c !! t) as [f|] eqn:Hf; [|discriminate].
    destruct (fut_func f) as [g|] eqn:Hg; [|discriminate].
    destruct (poll t f (c_st c)) as [[[[s' f'] r] evs]|] eqn:Hp; [|discriminate].
    inversion H; subst. eapply cs_poll; eauto; rewrite Hg; eexists; reflexivity.
  - destruct (fut_func f) as [g|] eqn:Hg; [|discriminate].
    inversion H; subst. apply cs_spawn. rewrite Hg. eexists; reflexivity.
Qed.

Lemma run_script_exec (Out : Type) (acts : list (Act Out)) (c c' : Cfg Out) (tr : list Ev) :
  run_script acts c = Some (tr, c') -> exec c tr c'.
Proof.
  revert c tr. induction acts as [|act acts IH]; intros c tr H; simpl in H.
  - inversion H; subst. constructor.
  - destruct (step_act act c) as [[e1 c1]|] eqn:H1; [|discriminate].
    destruct (run_script acts c1) as [[e2 c2]|] eqn:H2; [|discriminate].
    inversion H; subst. econstructor; [eapply step_act_cstep; eauto|]. apply IH, H2.
Qed.

Lemma cfg0_initial : initial cfg0.
Proof.
  split; [reflexivity|]. split; [reflexivity|]. split; [|reflexivity].
  intros a w Hw.
  change ((<[2 := w0]> {[1 := w0]} : gmap nat World) !! a = Some w) in Hw.
  destruct (decide (a = 2)) as [->|H2].
  - rewrite lookup_insert_eq in Hw. inversion Hw; reflexivity.
  - rewrite lookup_insert_ne in Hw by congruence.
    destruct (decide (a = 1)) as [->|H1].
    + rewrite lookup_singleton_eq in Hw. inversion Hw; reflexivity.
    + rewrite lookup_singleton_ne in Hw by congruence. discriminate.
Qed.

Lemma run_script_reachable (acts : list (Act Z)) (tr : list Ev) (c : Cfg Z) :
  run_script acts cfg0 = Some (tr, c) -> reachable c.
Proof. intros H. exists cfg0, tr. split; [apply cfg0_initial|]. eapply run_script_exec; eauto. Qed.

(** ** The checkpoint driver *)

Lemma driver_step_events (a : WorldId) (ph ph' : DPhase) (s s' : St) (evs : list Ev) :
  driver_step a ph s = Some (ph', s', evs) ->
  driver_events evs = evs /\ (forall b, ~ In (EStart b) evs) /\ (forall b, pops b evs = 0).
Proof.
  intros H. destruct ph as [| |ws|[|u ws] n| | |]; simpl in H;
    repeat match goal with
    | H : context [match ?x with _ => _ end] |- _ => destruct x
    end; inversion H; subst; simpl; (split; [reflexivity|]);
    (split; [intros b; intuition discriminate | reflexivity]).
Qed.

Lemma exec_done_stays (Out : Type) (c c' : Cfg Out) (tr : list Ev) (a : WorldId) :
  exec c tr c' -> c_drv c = Some (a, D_Done) -> no_start tr -> c_drv c' = Some (a, D_Done).
Proof.
  induction 1 as [c|c1 e1 c2 e2 c3 Hs He IH]; intros Hd Hn; [exact Hd|].
  assert (Hn2 : no_start e2) by (intros b Hb; apply (Hn b), in_or_app; auto).
  destruct Hs as [c0 b Hi | c0 b ph ph' s' evs Hd' Hds | c0 u f f' s' r evs Hf Hsome Hp | c0 f Hsome].
  - exfalso. apply (Hn b). simpl. auto.
  - rewrite Hd in Hd'. inversion Hd'; subst. discriminate.
  - apply IH; [exact Hd|exact Hn2].
  - apply IH; [exact Hd|exact Hn2].
Qed.

Lemma exec_driver_rest (Out : Type) (c c' : Cfg Out) (tr : list Ev) (a : WorldId) (ph : DPhase) :
  exec c tr c' -> c_drv c = Some (a, ph) -> c_drv c' = Some (a, D_Done) -> no_start tr ->
  rest_ok a ph (driver_events tr).
Proof.
  intros He. revert ph.
  induction He as [c|c1 e1 c2 e2 c3 Hs He IH]; intros ph Hd Hd' Hn.
  - rewrite Hd in Hd'. inversion Hd'; subst. reflexivity.
  - assert (Hn2 : no_start e2) by (intros b Hb; apply (Hn b), in_or_app; auto).
    rewrite driver_events_app.
    destruct Hs as [c0 b Hi | c0 b ph0 ph' s' evs Hd0 Hds
                   | c0 u f f' s' r evs Hf Hsome Hp | c0 f Hsome].
    + exfalso. apply (Hn b). simpl. auto.
    + rewrite Hd in Hd0. injection Hd0 as Hb Hph. subst b ph0.
      specialize (IH ph' eq_refl Hd' Hn2).
      destruct ph as [| |ws|[|u ws] n| | |]; simpl in Hds.
      * inversion Hds; subst. exact IH.
      * destruct (waker_list (c_st c0) !! a) as [ws|]; inversion Hds; subst.
        -- destruct IH as [k ->]. exists (Some ws), k. reflexivity.
        -- simpl in IH. rewrite IH. exists None, 0. reflexivity.
      * destruct (worlds (c_st c0) !! a); inversion Hds; subst.
        destruct IH as [k ->]. exists k. reflexivity.
      * destruct (0 <? n) eqn:Hn0; inversion Hds; subst.
        -- simpl in IH. rewrite IH. exists (tickets_of (c_st c0) a).
           unfold wait_part. rewrite Hn0. reflexivity.
        -- simpl in IH. rewrite IH. exists 0. unfold wait_part. rewrite Hn0. reflexivity.
      * inversion Hds; subst. destruct IH as [k ->]. exists k. reflexivity.
      * destruct (worlds (c_st c0) !! a) as [w|]; [|discriminate].
        destruct (w_tickets w =? 0); inversion Hds; subst. simpl in IH. rewrite IH. reflexivity.
      * destruct (gate (c_st c0)); inversion Hds; subst. simpl in IH. rewrite IH. reflexivity.
      * discriminate.
    + destruct (poll_effect Out u f f' _ s' r evs Hp) as (_ & _ & _ & _ & Hde).
      rewrite Hde. simpl. apply IH; [exact Hd|exact Hd'|exact Hn2].
    + simpl. apply IH; [exact Hd|exact Hd'|exact Hn2].
Qed.

(** C3: one invocation of the driver on world [a], interleaved with any
    polls of any executors, performs its own steps in this order: open the
    gate, remove [a]'s waiter entry (a list [ws] of size [N], or none),
    reset [a]'s ticket counter to [N], wake the drained wakers in
    registration order, wait on the barrier when [N > 0] (with [k] tickets
    still live when it begins), and close the gate; after it returns the
    gate is empty. When there is no entry the code skips the reset (and the
    wakes and the wait, [N = 0]): the counter is then already [0 = N],
    since at the start of every checkpoint it is [0]. *)
Theorem checkpoint_steps_in_order (Out : Type) (c c' : Cfg Out) (tr : list Ev) (a : WorldId) :
  reachable c -> c_drv c = Some (a, D_Open) -> exec c tr c' ->
  c_drv c' = Some (a, D_Done) -> no_start tr ->
  tickets_of (c_st c) a = 0 /\
  (exists entry k, driver_events tr = checkpoint_trace a entry k) /\
  gate (c_st c') = None.
Proof.
  intros Hr Hd He Hd' Hn. split; [|split].
  - destruct (reachable_Inv Out c Hr) as [Ht _]. unfold tickets_of.
    destruct (worlds (c_st c) !! a) as [w|] eqn:Hw; [|reflexivity].
    destruct (Ht a w Hw) as [H|[(ws & n & Hd0 & _)|Hd0]]; [exact H| |];
      rewrite Hd in Hd0; discriminate.
  - exact (exec_driver_rest Out c c' tr a D_Open He Hd Hd' Hn).
  - destruct (reachable_Inv Out c' (reachable_exec Out c c' tr Hr He)) as [_ Hg].
    unfold gate_ok in Hg. rewrite Hd' in Hg. exact Hg.
Qed.

Lemma checkpoint_steps_in_order_witness :
  exists (c c' : Cfg Z) tr,
    run_script prefix1 cfg0 = Some ([ERegister 0 1; EStart 1], c) /\
    reachable c /\ c_drv c = Some (1, D_Open) /\ exec c tr c' /\
    c_drv c' = Some (1, D_Done) /\ no_start tr /\
    tickets_of (c_st c) 1 = 0 /\
    (exists entry k, driver_events tr = checkpoint_trace 1 entry k) /\
    gate (c_st c') = None.
Proof.
  eexists _, _, _.
  assert (H1 : run_script prefix1 cfg0 = Some ([ERegister 0 1; EStart 1],
                 mkCfg (mkSt None {[1 := [0]]} (worlds st_two_worlds)) (Some (1, D_Open))
                   [async_access 1 incr])) by (vm_compute; reflexivity).
  split; [exact H1|].
  assert (Hr : reachable (mkCfg (mkSt None {[1 := [0]]} (worlds st_two_worlds))
                          (Some (1, D_Open)) [async_access 1 incr]))
    by (eapply run_script_reachable; exact H1).
  assert (He : run_script [A_Drv; A_Drv; A_Drv; A_Drv; A_Drv; A_Poll 0; A_Drv; A_Drv]
                 (mkCfg (mkSt None {[1 := [0]]} (worlds st_two_worlds)) (Some (1, D_Open))
                    [async_access 1 incr])
               = Some ([EOpen 1; EDrain 1 (Some [0]); EReset 1 1; EWake 0; EWaitBegin 1 1;
                        ERun 0 1; EApply 0 1; EPop 0 1; EWaitDone 1; EClose 1],
                       mkCfg (mkSt None ∅ (<[1 := mkWorld 1 0]> (worlds st_two_worlds)))
                         (Some (1, D_Done)) [mkFut None 1]))
    by (vm_compute; reflexivity).
  apply run_script_exec in He.
  assert (Hn : no_start [EOpen 1; EDrain 1 (Some [0]); EReset 1 1; EWake 0; EWaitBegin 1 1;
                         ERun 0 1; EApply 0 1; EPop 0 1; EWaitDone 1; EClose 1])
    by (intros b; simpl; intuition discriminate).
  do 5 (split; [eassumption || reflexivity|]).
  apply (checkpoint_steps_in_order Z _ _ _ 1 Hr eq_refl He eq_refl Hn).
Defined.

(** ** Ticket accounting inside a window *)

Lemma window_accounting (Out : Type) (c c' : Cfg Out) (tr : list Ev) (a : WorldId) :
  exec c tr c' -> gate (c_st c) = Some a ->
  ((exists ws n, c_drv c = Some (a, D_Wake ws n) /\ tickets_of (c_st c) a <= n) \/
   c_drv c = Some (a, D_Wait) \/
   (c_drv c = Some (a, D_Close) /\ tickets_of (c_st c) a = 0)) ->
  c_drv c' = Some (a, D_Close) -> no_start tr ->
  tickets_of (c_st c) a = pops a tr /\ tickets_of (c_st c') a = 0.
Proof.
  induction 1 as [c|c1 e1 c2 e2 c3 Hs He IH]; intros Hg Hph Hd' Hn.
  - rewrite Hd' in Hph. simpl.
    destruct Hph as [(ws & n & Hd & _)|[Hd|[_ H0]]]; try discriminate. lia.
  - assert (Hn2 : no_start e2) by (intros b Hb; apply (Hn b), in_or_app; auto).
    rewrite pops_app.
    destruct Hs as [c0 b Hi | c0 b ph0 ph' s' evs Hd0 Hds
                   | c0 u f f' s' r evs Hf Hsome Hp | c0 f Hsome].
    + exfalso. apply (Hn b). simpl. auto.
    + destruct (driver_step_events b ph0 ph' _ s' evs Hds) as (_ & _ & Hp0).
      rewrite Hp0. simpl.
      destruct Hph as [(ws & n & Hd & Hle)|[Hd|[Hd H0]]]; rewrite Hd in Hd0;
        injection Hd0 as Hb Hph0; subst b ph0; simpl in Hds.
      * destruct ws as [|t ws].
        -- destruct (0 <? n) eqn:Hn0; inversion Hds; subst.
           ++ apply IH; simpl; auto.
           ++ apply Nat.ltb_ge in Hn0. apply IH; simpl; auto. right; right. split; [reflexivity|lia].
        -- inversion Hds; subst. apply IH; simpl; auto. left. exists ws, n. auto.
      * destruct (worlds (c_st c0) !! a) as [w|] eqn:Hw; [|discriminate].
        destruct (Nat.eqb_spec (w_tickets w) 0) as [H0|H0]; inversion Hds; subst.
        apply IH; simpl; auto. right; right. split; [reflexivity|].
        unfold tickets_of. rewrite Hw. exact H0.
      * destruct (gate (c_st c0)); inversion Hds; subst.
        exfalso. pose proof (exec_done_stays Out _ _ _ a He eq_refl Hn2). congruence.
    + destruct (poll_effect Out u f f' _ s' r evs Hp) as (Hg' & Hacc & _).
      specialize (Hacc a). simpl in *.
      destruct (IH ltac:(congruence)) as [IH1 IH2]; [| exact Hd' | exact Hn2 |].
      * destruct Hph as [(ws & n & Hd & Hle)|[Hd|[Hd H0]]].
        -- left. exists ws, n. split; [exact Hd|lia].
        -- right; left. exact Hd.
        -- right; right. split; [exact Hd|lia].
      * split; [lia|exact IH2].
    + simpl in *. apply IH; auto.
Qed.

(** From the refill on, the counter of the driver's world only goes down,
    by one per ticket popped, and a wait begins with at most the tickets
    live at the start. *)
Lemma exec_after_refill (Out : Type) (c c' : Cfg Out) (tr : list Ev) (a : WorldId) :
  exec c tr c' -> no_start tr ->
  (exists ph, c_drv c = Some (a, ph) /\ after_refill ph) ->
  tickets_of (c_st c') a + pops a tr = tickets_of (c_st c) a /\
  (forall k, In (EWaitBegin a k) tr -> k <= tickets_of (c_st c) a).
Proof.
  induction 1 as [c|c1 e1 c2 e2 c3 Hs He IH]; intros Hn (ph & Hd & Hph).
  - simpl. split; [lia|intros k []].
  - assert (Hn2 : no_start e2) by (intros b Hb; apply (Hn b), in_or_app; auto).
    assert (Hstep : tickets_of (c_st c2) a + pops a e1 = tickets_of (c_st c1) a /\
                    (forall k, In (EWaitBegin a k) e1 -> k <= tickets_of (c_st c1) a) /\
                    exists ph2, c_drv c2 = Some (a, ph2) /\ after_refill ph2).
    { destruct Hs as [c0 b Hi | c0 b ph0 ph' s' evs Hd0 Hds
                     | c0 u f f' s' r evs Hf Hsome Hp | c0 f Hsome].
      - exfalso. apply (Hn b). simpl. auto.
      - rewrite Hd in Hd0. injection Hd0 as Hb Hph0. subst b ph0.
        destruct (driver_step_events a ph ph' _ s' evs Hds) as (_ & _ & Hp0).
        rewrite Hp0. cbn [c_st c_drv].
        destruct ph as [| |ws|[|u ws] n| | |]; simpl in Hph; try contradiction;
          simpl in Hds.
        + destruct (0 <? n); inversion Hds; subst; simpl.
          * split; [lia|]. split; [intros k [E|[]]; inversion E; lia|].
            exists D_Wait. split; [reflexivity|exact I].
          * split; [lia|]. split; [intros k []|].
            exists D_Close. split; [reflexivity|exact I].
        + inversion Hds; subst. split; [lia|]. split; [intros k [E|[]]; discriminate|].
          exists (D_Wake ws n). split; [reflexivity|exact I].
        + destruct (worlds (c_st c0) !! a) as [w|]; [|discriminate].
          destruct (w_tickets w =? 0); inversion Hds; subst.
          split; [lia|]. split; [intros k [E|[]]; discriminate|].
          exists D_Close. split; [reflexivity|exact I].
        + destruct (gate (c_st c0)); inversion Hds; subst.
          split; [unfold tickets_of, set_gate; simpl; lia|].
          split; [intros k [E|[]]; discriminate|].
          exists D_Done. split; [reflexivity|exact I].
        + discriminate.
      - destruct (poll_effect Out u f f' _ s' r evs Hp) as (_ & Hacc & _ & _ & Hde).
        split; [apply Hacc|]. split.
        + intros k Hin. assert (Hk : In (EWaitBegin a k) (driver_events evs)).
          { unfold driver_events. apply filter_In. split; [exact Hin|reflexivity]. }
          rewrite Hde in Hk. destruct Hk.
        + exists ph. split; [exact Hd|exact Hph].
      - simpl. split; [lia|]. split; [intros k []|]. exists ph. auto. }
    destruct Hstep as (H1 & H2 & Hd2). destruct (IH Hn2 Hd2) as [H3 H4].
    rewrite pops_app. split; [lia|].
    intros k Hin. apply in_app_or in Hin as [Hin|Hin]; [apply H2, Hin|].
    specialize (H4 k Hin). lia.
Qed.

(** C6 (as amended): right after the refill the ticket count of the
    driver's world is exactly the number [N] of drained waiters (whatever was
    left in the vector is cleared); from there on the count only goes down,
    by one for each ticket popped in the window (along any run from the
    refill), so the wait begins with at most [N] live tickets; and the
    driver moves on only at zero: exactly [N] tickets are popped in that
    window (by whichever futures run in it). *)
Theorem window_releases_exactly_N (Out : Type) (c c' : Cfg Out) (tr : list Ev) (a : WorldId)
    (ws : list TaskId) (ph1 : DPhase) (s1 : St) (evs : list Ev) :
  reachable c -> c_drv c = Some (a, D_Reset ws) ->
  driver_step a (D_Reset ws) (c_st c) = Some (ph1, s1, evs) ->
  exec (mkCfg s1 (Some (a, ph1)) (c_futs c)) tr c' ->
  c_drv c' = Some (a, D_Close) -> no_start tr ->
  tickets_of s1 a = length ws /\ pops a tr = length ws /\ tickets_of (c_st c') a = 0 /\
  (forall k, In (EWaitBegin a k) tr -> k <= length ws) /\
  (forall tr1 cm, exec (mkCfg s1 (Some (a, ph1)) (c_futs c)) tr1 cm -> no_start tr1 ->
     tickets_of (c_st cm) a + pops a tr1 = length ws).
Proof.
  intros Hr Hd Hds He Hd' Hn.
  destruct (reachable_Inv Out c Hr) as [_ Hg]. unfold gate_ok in Hg. rewrite Hd in Hg.
  simpl in Hds. destruct (worlds (c_st c) !! a) as [w|] eqn:Hw; [|discriminate].
  inversion Hds; subst; clear Hds.
  assert (Ht1 : tickets_of (set_world a (mkWorld (w_data w) (length ws)) (c_st c)) a = length ws).
  { unfold tickets_of, set_world; simpl. rewrite lookup_insert_eq. reflexivity. }
  assert (Hph : exists ph, c_drv (mkCfg (set_world a (mkWorld (w_data w) (length ws)) (c_st c))
                                  (Some (a, D_Wake ws (length ws))) (c_futs c)) = Some (a, ph) /\
                           after_refill ph)
    by (exists (D_Wake ws (length ws)); split; [reflexivity|exact I]).
  destruct (window_accounting Out _ c' tr a He) as [H1 H2]; [exact Hg| |exact Hd'|exact Hn|].
  - left. exists ws, (length ws). simpl. split; [reflexivity|lia].
  - simpl in H1. split; [exact Ht1|]. split; [lia|]. split; [exact H2|]. split.
    + intros k Hk. destruct (exec_after_refill Out _ _ tr a He Hn Hph) as [_ H4].
      specialize (H4 k Hk). cbn [c_st] in H4. lia.
    + intros tr1 cm He1 Hn1. destruct (exec_after_refill Out _ _ tr1 a He1 Hn1 Hph) as [H3 _].
      cbn [c_st] in H3. lia.
Qed.

Lemma window_releases_exactly_N_witness :
  reachable (mkCfg (mkSt (Some 1) ∅ (worlds st_two_worlds)) (Some (1, D_Reset [0]))
               [async_access 1 incr]) /\
  exists (c' : Cfg Z) tr,
    driver_step 1 (D_Reset [0]) (mkSt (Some 1) ∅ (worlds st_two_worlds)) =
      Some (D_Wake [0] 1, set_world 1 (mkWorld 0 1) (mkSt (Some 1) ∅ (worlds st_two_worlds)),
            [EReset 1 1]) /\
    exec (mkCfg (set_world 1 (mkWorld 0 1) (mkSt (Some 1) ∅ (worlds st_two_worlds)))
            (Some (1, D_Wake [0] 1)) [async_access 1 incr]) tr c' /\
    c_drv c' = Some (1, D_Close) /\ no_start tr /\
    tickets_of (set_world 1 (mkWorld 0 1) (mkSt (Some 1) ∅ (worlds st_two_worlds))) 1 = length [0] /\
    pops 1 tr = length [0] /\ tickets_of (c_st c') 1 = 0 /\
    (forall k, In (EWaitBegin 1 k) tr -> k <= length [0]) /\
    (forall tr1 cm,
       exec (mkCfg (set_world 1 (mkWorld 0 1) (mkSt (Some 1) ∅ (worlds st_two_worlds)))
               (Some (1, D_Wake [0] 1)) [async_access 1 incr]) tr1 cm -> no_start tr1 ->
       tickets_of (c_st cm) 1 + pops 1 tr1 = length [0]).
Proof.
  assert (Hr : reachable (mkCfg (mkSt (Some 1) ∅ (worlds st_two_worlds))
                            (Some (1, D_Reset [0])) [async_access 1 incr])).
  { apply (run_script_reachable (prefix1 ++ [A_Drv; A_Drv])
             [ERegister 0 1; EStart 1; EOpen 1; EDrain 1 (Some [0])]).
    vm_compute. reflexivity. }
  split; [exact Hr|].
  assert (He : exec (mkCfg (set_world 1 (mkWorld 0 1) (mkSt (Some 1) ∅ (worlds st_two_worlds)))
                       (Some (1, D_Wake [0] 1)) [async_access 1 incr])
                 [EWake 0; EWaitBegin 1 1; ERun 0 1; EApply 0 1; EPop 0 1; EWaitDone 1]
                 (mkCfg (mkSt (Some 1) ∅ (<[1 := mkWorld 1 0]> (worlds st_two_worlds)))
                    (Some (1, D_Close)) [mkFut None 1])).
  { apply (run_script_exec Z [A_Drv; A_Drv; A_Poll 0; A_Drv]). vm_compute. reflexivity. }
  assert (Hds : driver_step 1 (D_Reset [0]) (mkSt (Some 1) ∅ (worlds st_two_worlds)) =
      Some (D_Wake [0] 1, set_world 1 (mkWorld 0 1) (mkSt (Some 1) ∅ (worlds st_two_worlds)),
            [EReset 1 1])) by (vm_compute; reflexivity).
  assert (Hn : no_start [EWake 0; EWaitBegin 1 1; ERun 0 1; EApply 0 1; EPop 0 1; EWaitDone 1])
    by (intros b; simpl; intuition discriminate).
  eexists _, _. split; [exact Hds|]. split; [exact He|]. split; [reflexivity|].
  split; [exact Hn|].
  exact (window_releases_exactly_N Z _ _ _ 1 [0] _ _ _ Hr eq_refl Hds He eq_refl Hn).
Defined.

(** C6 fails as stated: a woken continuation may run before the driver
    reaches [wg.wait()]. Here one waiter is drained ([N = 1]), its task
    runs right after its wake, and the wait begins with no live ticket. *)
Lemma wait_begins_below_N :
  exists c, exec cfg0
    [ERegister 0 1; EStart 1; EOpen 1; EDrain 1 (Some [0]); EReset 1 1; EWake 0;
     ERun 0 1; EApply 0 1; EPop 0 1; EWaitBegin 1 0] c /\ initial cfg0.
Proof.
  eexists. split; [|apply cfg0_initial].
  apply (run_script_exec Z (prefix1 ++ [A_Drv; A_Drv; A_Drv; A_Drv; A_Poll 0; A_Drv])).
  vm_compute. reflexivity.
Qed.

(** C7: a checkpoint whose world has no waiter entry, or an empty one,
    runs through without ever entering the wait: the driver's own steps
    open the gate, drain, and close it, none of them blocks, and the gate
    is empty when it returns. *)
Theorem empty_checkpoint_skips_wait (s : St) (a : WorldId) (w : World) :
  (waker_list s !! a = None \/ waker_list s !! a = Some []) ->
  worlds s !! a = Some w ->
  exists s' evs, drive 5 a D_Open s = (D_Done, s', evs) /\
    evs = checkpoint_trace a (waker_list s !! a) 0 /\
    (forall k, ~ In (EWaitBegin a k) evs) /\ ~ In (EWaitDone a) evs /\
    gate s' = None.
Proof.
  intros [Hl|Hl] Hw; simpl; unfold set_gate, set_waker_list; simpl; rewrite Hl; simpl.
  - do 2 eexists. split; [reflexivity|]. split; [reflexivity|].
    split; [intros k; simpl; intuition discriminate|].
    split; [simpl; intuition discriminate|]. reflexivity.
  - rewrite Hw. simpl.
    do 2 eexists. split; [reflexivity|]. split; [reflexivity|].
    split; [intros k; simpl; intuition discriminate|].
    split; [simpl; intuition discriminate|]. reflexivity.
Qed.

Lemma empty_checkpoint_skips_wait_witness :
  exists s' evs, drive 5 1 D_Open st_two_worlds = (D_Done, s', evs) /\
    evs = checkpoint_trace 1 (waker_list st_two_worlds !! 1) 0 /\
    (forall k, ~ In (EWaitBegin 1 k) evs) /\ ~ In (EWaitDone 1) evs /\
    gate s' = None.
Proof.
  apply (empty_checkpoint_skips_wait st_two_worlds 1 w0); [left|]; reflexivity.
Defined.

(** ** The completion wait *)







(** ** Requests that arrive while a window is open *)




(** ** What each step leaves alone *)

Ltac st_simpl := unfold set_waker_list, set_gate, set_world; cbn [waker_list worlds gate].

Lemma driver_step_frame (a : WorldId) (ph ph' : DPhase) (s s' : St) (evs : list Ev) :
  driver_step a ph s = Some (ph', s', evs) ->
  (forall b, b <> a -> waker_list s' !! b = waker_list s !! b /\ worlds s' !! b = worlds s !! b) /\
  (forall b, w_data <$> worlds s' !! b = w_data <$> worlds s !! b) /\
  (waker_list s' = waker_list s \/
   (ph = D_Drain /\ waker_list s' = delete a (waker_list s) /\
    evs = [EDrain a (waker_list s !! a)])) /\
  (forall t b, ~ In (ERun t b) evs).
Proof.
  intros H. destruct ph as [| |ws|[|u ws] n| | |]; simpl in H.
  - inversion H; subst; st_simpl. split; [auto|]. split; [auto|]. split; [auto|].
    intros t b Hin; simpl in Hin; intuition discriminate.
  - destruct (waker_list s !! a) as [ws|] eqn:E; inversion H; subst; st_simpl;
      (split; [intros b Hb; rewrite lookup_delete_ne by congruence; auto|]);
      (split; [auto|]); (split; [right; auto|]);
      intros t b Hin; simpl in Hin; intuition discriminate.
  - destruct (worlds s !! a) as [w|] eqn:E; [|discriminate]. inversion H; subst; st_simpl.
    split; [intros b Hb; rewrite lookup_insert_ne by congruence; auto|].
    split; [|split; [left; reflexivity|]].
    + intros b. destruct (Nat.eq_dec a b) as [<-|Hne].
      * rewrite lookup_insert_eq, E. reflexivity.
      * rewrite lookup_insert_ne by done. reflexivity.
    + intros t b Hin; simpl in Hin; intuition discriminate.
  - destruct (0 <? n); inversion H; subst;
      (split; [auto|]); (split; [auto|]); (split; [auto|]);
      intros t b Hin; simpl in Hin; intuition discriminate.
  - inversion H; subst. split; [auto|]. split; [auto|]. split; [auto|].
    intros t b Hin; simpl in Hin; intuition discriminate.
  - destruct (worlds s !! a) as [w|]; [|discriminate].
    destruct (w_tickets w =? 0); inversion H; subst.
    split; [auto|]. split; [auto|]. split; [auto|].
    intros t b Hin; simpl in Hin; intuition discriminate.
  - destruct (gate s); inversion H; subst; st_simpl.
    split; [auto|]. split; [auto|]. split; [auto|].
    intros t b Hin; simpl in Hin; intuition discriminate.
  - discriminate.
Qed.

Lemma poll_frame (Out : Type) (u : TaskId) (f f' : @Fut Out) (s s' : St)
    (r : PollRes Out) (evs : list Ev) :
  poll u f s = Some (s', f', r, evs) ->
  gate s' = gate s /\
  ((exists a, gate s = Some a /\ waker_list s' = waker_list s /\
      (forall b, b <> a -> worlds s' !! b = worlds s !! b) /\
      fut_func f' = None /\
      (forall t b, In (ERun t b) evs <-> t = u /\ b = a) /\
      (forall t, runs_by t evs = if Nat.eqb t u then 1 else 0))
   \/ (gate s = None /\ worlds s' = worlds s /\
      waker_list s' = register_waker (fut_world f) u (waker_list s) /\
      f' = f /\ evs = [ERegister u (fut_world f)])).
Proof.
  intros Hp. unfold poll in Hp.
  destruct (gate s) as [a|] eqn:Hg.
  - destruct (worlds s !! a) as [w|] eqn:Hw; [|discriminate].
    destruct (fut_func f) as [c|]; [|discriminate].
    destruct (c (w_data w)) as [[d1 cmds] o].
    inversion Hp; subst; clear Hp. st_simpl. split; [exact Hg|]. left. exists a.
    split; [reflexivity|]. split; [reflexivity|].
    split; [intros b Hb; rewrite lookup_insert_ne by congruence; reflexivity|].
    split; [reflexivity|]. split.
    + intros t b. split.
      * intros Hin. destruct (w_tickets w); simpl in Hin;
          repeat destruct Hin as [Hin|Hin]; try discriminate; try contradiction;
          inversion Hin; subst; auto.
      * intros [-> ->]. simpl. auto.
    + intros t. destruct (w_tickets w); simpl; destruct (Nat.eqb t u); reflexivity.
  - inversion Hp; subst; clear Hp. st_simpl. split; [exact Hg|]. right. auto.
Qed.

Lemma register_waker_nonempty (b : WorldId) (t : TaskId) (m : gmap WorldId (list TaskId)) :
  entries_nonempty m -> entries_nonempty (register_waker b t m).
Proof.
  intros H b' l Hl. destruct (Nat.eq_dec b b') as [<-|Hne].
  - rewrite register_waker_same in Hl. inversion Hl; subst.
    intros E. apply app_eq_nil in E as [_ E]. discriminate.
  - rewrite register_waker_other in Hl by done. eapply H; eauto.
Qed.

Lemma cstep_entries_nonempty (Out : Type) (c c' : Cfg Out) (e : list Ev) :
  cstep c e c' -> entries_nonempty (waker_list (c_st c)) ->
  entries_nonempty (waker_list (c_st c')).
Proof.
  intros Hs HN. destruct Hs as [c0 a Hi | c0 a ph ph' s' evs Hd Hds
                               | c0 u f f' s' r evs Hf Hsome Hp | c0 f Hsome]; simpl.
  - exact HN.
  - destruct (driver_step_frame a ph ph' _ s' evs Hds) as (_ & _ & [Hl|(_ & Hl & _)] & _);
      rewrite Hl; [exact HN|].
    intros b l Hb. apply lookup_delete_Some in Hb as [_ Hb]. eapply HN; eauto.
  - destruct (poll_frame Out u f f' _ s' r evs Hp) as (_ & [(a & _ & Hl & _)|(_ & _ & Hl & _)]);
      rewrite Hl; [exact HN|]. apply register_waker_nonempty, HN.
  - exact HN.
Qed.

Lemma exec_entries_nonempty (Out : Type) (c c' : Cfg Out) (tr : list Ev) :
  exec c tr c' -> entries_nonempty (waker_list (c_st c)) ->
  entries_nonempty (waker_list (c_st c')).
Proof.
  induction 1 as [c|c1 e1 c2 e2 c3 Hs He IH]; intros HN; [exact HN|].
  apply IH. eapply cstep_entries_nonempty; eauto.
Qed.

Lemma cfg_open1_reachable : reachable cfg_open1.
Proof. eapply (run_script_reachable prefix1). vm_compute. reflexivity. Qed.

Lemma cfg_wait1_reachable : reachable cfg_wait1.
Proof.
  eapply (run_script_reachable (prefix1 ++ [A_Drv; A_Drv; A_Drv; A_Drv; A_Drv])).
  vm_compute. reflexivity.
Qed.

Lemma runs_by_app (t : TaskId) (l1 l2 : list Ev) :
  runs_by t (l1 ++ l2) = runs_by t l1 + runs_by t l2.
Proof. induction l1 as [|e l1 IH]; simpl; [reflexivity|]. rewrite IH. lia. Qed.

Lemma runs_by_none (t : TaskId) (l : list Ev) :
  (forall b, ~ In (ERun t b) l) -> runs_by t l = 0.
Proof.
  induction l as [|e l IH]; intros H; simpl; [reflexivity|].
  rewrite IH by (intros b Hb; apply (H b); right; exact Hb).
  destruct e; simpl; try reflexivity.
  destruct (Nat.eqb_spec t t0) as [->|]; [|reflexivity].
  exfalso. apply (H a). left. reflexivity.
Qed.

Lemma cstep_run_budget (Out : Type) (t : TaskId) (c c' : Cfg Out) (e : list Ev) :
  cstep c e c' -> runs_by t e + task_budget t c' <= task_budget t c.
Proof.
  intros Hs. destruct Hs as [c0 a Hi | c0 a ph ph' s' evs Hd Hds
                           | c0 u f f' s' r evs Hf Hsome Hp | c0 f Hsome];
    unfold task_budget; simpl.
  - lia.
  - destruct (driver_step_frame a ph ph' _ s' evs Hds) as (_ & _ & _ & Hn).
    rewrite (runs_by_none t evs (Hn t)). lia.
  - destruct (poll_frame Out u f f' _ s' r evs Hp)
      as (_ & [(a & _ & _ & _ & Hn & _ & Hr)|(_ & _ & _ & -> & ->)]).
    + rewrite Hr. destruct (Nat.eqb_spec t u) as [->|Hne].
      * rewrite list_lookup_insert_eq by (eapply lookup_lt_Some; eauto).
        rewrite Hf, Hn. destruct Hsome as [cl Hcl]. rewrite Hcl. lia.
      * rewrite list_lookup_insert_ne by congruence. lia.
    + simpl. destruct (Nat.eq_dec u t) as [->|Hne].
      * rewrite list_lookup_insert_eq by (eapply lookup_lt_Some; eauto). rewrite Hf. lia.
      * rewrite list_lookup_insert_ne by congruence. lia.
  - destruct (c_futs c0 !! t) as [g|] eqn:Hg.
    + rewrite lookup_app_l by (eapply lookup_lt_Some; eauto). rewrite Hg. lia.
    + destruct ((c_futs c0 ++ [f]) !! t) as [g|] eqn:Hg2; [|lia].
      apply lookup_app_Some in Hg2 as [Hg2|[_ Hg2]]; [congruence|].
      apply list_lookup_singleton_Some in Hg2 as [_ <-].
      destruct Hsome as [cl ->]. lia.
Qed.

Lemma exec_run_budget (Out : Type) (t : TaskId) (c c' : Cfg Out) (tr : list Ev) :
  exec c tr c' -> runs_by t tr + task_budget t c' <= task_budget t c.
Proof.
  induction 1 as [c|c1 e1 c2 e2 c3 Hs He IH]; [simpl; lia|].
  pose proof (cstep_run_budget Out t _ _ _ Hs).
  rewrite runs_by_app. lia.
Qed.

Lemma cstep_registered_kept (Out : Type) (c c' : Cfg Out) (e : list Ev)
    (b : WorldId) (t : TaskId) :
  cstep c e c' -> In t (default [] (waker_list (c_st c) !! b)) ->
  In t (default [] (waker_list (c_st c') !! b)) \/
  exists l, In (EDrain b (Some l)) e /\ In t l.
Proof.
  intros Hs Hin. destruct Hs as [c0 a Hi | c0 a ph ph' s' evs Hd Hds
                                | c0 u f f' s' r evs Hf Hsome Hp | c0 f Hsome]; simpl.
  - left. exact Hin.
  - destruct (driver_step_frame a ph ph' _ s' evs Hds) as (_ & _ & [Hl|(_ & Hl & Hev)] & _).
    + left. rewrite Hl. exact Hin.
    + rewrite Hl, Hev. destruct (Nat.eq_dec a b) as [<-|Hne].
      * right. destruct (waker_list (c_st c0) !! a) as [l|]; simpl in Hin; [|contradiction].
        exists l. split; [left; reflexivity|exact Hin].
      * left. rewrite lookup_delete_ne by done. exact Hin.
  - destruct (poll_frame Out u f f' _ s' r evs Hp) as (_ & [(a & _ & Hl & _)|(_ & _ & Hl & _)]);
      left; rewrite Hl; [exact Hin|].
    destruct (Nat.eq_dec (fut_world f) b) as [<-|Hne].
    + rewrite register_waker_same. simpl. apply in_or_app. left. exact Hin.
    + rewrite register_waker_other by done. exact Hin.
  - left. exact Hin.
Qed.

Lemma cstep_world_data (Out : Type) (c c' : Cfg Out) (e : list Ev) (b : WorldId) :
  cstep c e c' -> (forall t, ~ In (ERun t b) e) ->
  w_data <$> worlds (c_st c') !! b = w_data <$> worlds (c_st c) !! b.
Proof.
  intros Hs Hn. destruct Hs as [c0 a Hi | c0 a ph ph' s' evs Hd Hds
                               | c0 u f f' s' r evs Hf Hsome Hp | c0 f Hsome]; simpl.
  - reflexivity.
  - destruct (driver_step_frame a ph ph' _ s' evs Hds) as (_ & Hw & _). apply Hw.
  - destruct (poll_frame Out u f f' _ s' r evs Hp)
      as (_ & [(a & _ & _ & Hw & _ & Hr & _)|(_ & Hw & _)]).
    + destruct (Nat.eq_dec b a) as [->|Hne].
      * exfalso. apply (Hn u). apply Hr. auto.
      * rewrite Hw by exact Hne. reflexivity.
    + rewrite Hw. reflexivity.
  - reflexivity.
Qed.

Lemma run_script_app (Out : Type) (l1 l2 : list (Act Out)) (c : Cfg Out) :
  run_script (l1 ++ l2) c =
    match run_script l1 c with
    | Some (e1, c1) =>
        match run_script l2 c1 with Some (e2, c2) => Some (e1 ++ e2, c2) | None => None end
    | None => None
    end.
Proof.
  revert c. induction l1 as [|act l1 IH]; intros c; simpl.
  - destruct (run_script l2 c) as [[e2 c2]|]; reflexivity.
  - destruct (step_act act c) as [[e1 c1]|]; [|reflexivity]. rewrite IH.
    destruct (run_script l1 c1) as [[e c']|]; [|reflexivity].
    destruct (run_script l2 c') as [[e2 c2]|]; [|reflexivity].
    rewrite app_assoc. reflexivity.
Qed.

Lemma run_wakes (Out : Type) (ws : list TaskId) (n : nat) (a : WorldId) (s : St)
    (fs : list (@Fut Out)) :
  run_script (repeat A_Drv (length ws)) (mkCfg s (Some (a, D_Wake ws n)) fs) =
  Some (map EWake ws, mkCfg s (Some (a, D_Wake [] n)) fs).
Proof. induction ws as [|t ws IH]; simpl; [reflexivity|]. rewrite IH. reflexivity. Qed.

Lemma run_polls_window (Out : Type) (l : list TaskId) (a : WorldId)
    (d : option (WorldId * DPhase)) (s : St) (fs : list (@Fut Out)) (w : World) :
  gate s = Some a -> worlds s !! a = Some w -> length l <= w_tickets w -> NoDup l ->
  (forall t, In t l -> exists f, fs !! t = Some f /\ is_Some (fut_func f)) ->
  exists tr s' fs' w', run_script (map A_Poll l) (mkCfg s d fs) = Some (tr, mkCfg s' d fs') /\
    gate s' = Some a /\ worlds s' !! a = Some w' /\ w_tickets w' = w_tickets w - length l /\
    waker_list s' = waker_list s /\ (forall t, In t l -> In (ERun t a) tr).
Proof.
  revert s fs w. induction l as [|t l IH]; intros s fs w Hg Hw Hlen Hnd Hlive.
  - exists [], s, fs, w. simpl. repeat split; auto; lia.
  - destruct (Hlive t (or_introl eq_refl)) as (f & Hf & cl & Hcl).
    apply NoDup_cons in Hnd as [Hnotin Hnd].
    destruct (cl (w_data w)) as [[d1 cmds] o] eqn:Hc.
    set (s1 := set_world a (mkWorld (apply_cmds cmds d1) (Nat.pred (w_tickets w))) s).
    set (fs1 := <[t := mkFut None (fut_world f)]> fs).
    set (evs := [ERun t a; EApply t a] ++
                  match w_tickets w with 0 => [] | S _ => [EPop t a] end).
    assert (Hst : step_act (A_Poll t) (mkCfg s d fs) = Some (evs, mkCfg s1 d fs1)).
    { unfold step_act; cbn [c_futs c_st c_drv]. rewrite Hf, Hcl. unfold poll. rewrite Hg, Hw, Hcl, Hc. reflexivity. }
    simpl in Hlen.
    destruct (IH s1 fs1 (mkWorld (apply_cmds cmds d1) (Nat.pred (w_tickets w))))
      as (tr & s' & fs' & w' & Hrun & Hg' & Hw' & Ht' & Hl' & Hin'); [exact Hg| | simpl; lia | exact Hnd| |].
    + unfold s1, set_world. cbn [worlds]. apply lookup_insert_eq.
    + intros t' Ht'. unfold fs1. rewrite list_lookup_insert_ne by (intros E; apply Hnotin; rewrite E; apply list_elem_of_In; exact Ht').
      apply Hlive. right. exact Ht'.
    + exists (evs ++ tr), s', fs', w'. cbn [map run_script]. rewrite Hst, Hrun.
      split; [reflexivity|]. split; [exact Hg'|]. split; [exact Hw'|].
      split; [rewrite Ht'; simpl; lia|]. split; [exact Hl'|].
      intros t' [<-|Ht'']; apply in_or_app; [left; left; reflexivity|right; auto].
Qed.

Lemma run_polls_closed (Out : Type) (l : list TaskId) (b : WorldId)
    (d : option (WorldId * DPhase)) (s : St) (fs : list (@Fut Out)) :
  gate s = None ->
  (forall t, In t l -> exists f, fs !! t = Some f /\ is_Some (fut_func f) /\ fut_world f = b) ->
  exists s', run_script (map A_Poll l) (mkCfg s d fs) =
      Some (map (fun t => ERegister t b) l, mkCfg s' d fs) /\
    default [] (waker_list s' !! b) = default [] (waker_list s !! b) ++ l /\
    worlds s' = worlds s /\ gate s' = None.
Proof.
  revert s. induction l as [|t l IH]; intros s Hg Hlive.
  - exists s. simpl. rewrite app_nil_r. auto.
  - destruct (Hlive t (or_introl eq_refl)) as (f & Hf & [cl Hcl] & Hb).
    set (s1 := set_waker_list (register_waker b t (waker_list s)) s).
    assert (Hst : step_act (A_Poll t) (mkCfg s d fs) =
                  Some ([ERegister t b], mkCfg s1 d fs)).
    { unfold step_act; cbn [c_futs c_st c_drv]. rewrite Hf, Hcl. unfold poll. rewrite Hg, Hb.
      rewrite list_insert_id by exact Hf. reflexivity. }
    destruct (IH s1) as (s' & Hrun & Hl & Hw & Hg').
    + exact Hg.
    + intros t' Ht'. apply Hlive. right. exact Ht'.
    + exists s'. cbn [map run_script]. rewrite Hst, Hrun. split; [reflexivity|].
      split; [|split; [exact Hw|exact Hg']].
      rewrite Hl. unfold s1, set_waker_list. cbn [waker_list].
      rewrite register_waker_same. simpl. rewrite <- app_assoc. reflexivity.
Qed.

(** ** The waiter registry *)

(** X1: in every reachable configuration each entry of the waiter registry
    holds at least one waker: a poll only creates an entry to push onto it,
    and the driver removes an entry whole. *)
Theorem registry_entries_nonempty (Out : Type) (c : Cfg Out) :
  reachable c -> entries_nonempty (waker_list (c_st c)).
Proof.
  intros (c0 & tr & (_ & Hl & _) & He). eapply exec_entries_nonempty; [exact He|].
  rewrite Hl. intros b l Hb. rewrite lookup_empty in Hb. discriminate.
Qed.

Lemma registry_entries_nonempty_witness :
  reachable cfg_open1 /\ entries_nonempty (waker_list (c_st cfg_open1)).
Proof.
  split; [exact cfg_open1_reachable|].
  apply (registry_entries_nonempty Z cfg_open1 cfg_open1_reachable).
Defined.

(** X2: a registered waker is never lost: along any run, a task registered
    under world [b] stays registered under [b] unless the driver of [b]
    removed a list containing it (the [remove(&world_id)] of the drain). *)
Theorem registered_waker_kept_until_drained (Out : Type) (c c' : Cfg Out) (tr : list Ev)
    (b : WorldId) (t : TaskId) :
  exec c tr c' -> In t (default [] (waker_list (c_st c) !! b)) ->
  In t (default [] (waker_list (c_st c') !! b)) \/
  exists l, In (EDrain b (Some l)) tr /\ In t l.
Proof.
  induction 1 as [c|c1 e1 c2 e2 c3 Hs He IH]; intros Hin; [left; exact Hin|].
  destruct (cstep_registered_kept Out c1 c2 e1 b t Hs Hin) as [H2|(l & Hd & Hl)].
  - destruct (IH H2) as [H3|(l & Hd & Hl)]; [left; exact H3|].
    right. exists l. split; [apply in_or_app; right; exact Hd|exact Hl].
  - right. exists l. split; [apply in_or_app; left; exact Hd|exact Hl].
Qed.

Lemma registered_waker_kept_until_drained_witness :
  exists tr (c' : Cfg Z), exec cfg_open1 tr c' /\
    In 0 (default [] (waker_list (c_st cfg_open1) !! 1)) /\
    (In 0 (default [] (waker_list (c_st c') !! 1)) \/
     exists l, In (EDrain 1 (Some l)) tr /\ In 0 l).
Proof.
  destruct (run_script [A_Drv; A_Drv] cfg_open1) as [[tr c']|] eqn:E;
    [|vm_compute in E; discriminate].
  apply run_script_exec in E. exists tr, c'.
  assert (Hin : In 0 (default [] (waker_list (c_st cfg_open1) !! 1)))
    by (vm_compute; left; reflexivity).
  split; [exact E|]. split; [exact Hin|].
  exact (registered_waker_kept_until_drained Z _ _ _ 1 0 E Hin).
Defined.

(** X10: polls made while the gate is closed append their tasks to the
    entry of the requested world in the order of the polls, duplicates
    included, leave every future as it was and touch no world. *)
Theorem closed_polls_register_in_order (Out : Type) (c : Cfg Out) (b : WorldId)
    (l : list TaskId) :
  gate (c_st c) = None ->
  (forall t, In t l -> exists f, c_futs c !! t = Some f /\ is_Some (fut_func f) /\
                                 fut_world f = b) ->
  exists s', run_script (map A_Poll l) c =
      Some (map (fun t => ERegister t b) l, mkCfg s' (c_drv c) (c_futs c)) /\
    default [] (waker_list s' !! b) = default [] (waker_list (c_st c) !! b) ++ l /\
    worlds s' = worlds (c_st c) /\ gate s' = None.
Proof. destruct c as [s d fs]. apply run_polls_closed. Qed.

Lemma closed_polls_register_in_order_witness :
  gate (c_st (mkCfg st_two_worlds None [async_access 1 incr; async_access 1 incr])) = None /\
  exists s', run_script (map A_Poll [1; 0; 1])
               (mkCfg st_two_worlds None [async_access 1 incr; async_access 1 incr]) =
      Some (map (fun t => ERegister t 1) [1; 0; 1],
            mkCfg s' None [async_access 1 incr; async_access 1 incr]) /\
    default [] (waker_list s' !! 1) = default [] (waker_list st_two_worlds !! 1) ++ [1; 0; 1] /\
    worlds s' = worlds st_two_worlds /\ gate s' = None.
Proof.
  split; [reflexivity|].
  apply (closed_polls_register_in_order Z
           (mkCfg st_two_worlds None [async_access 1 incr; async_access 1 incr]) 1 [1; 0; 1]).
  - reflexivity.
  - intros t Ht. simpl in Ht.
    destruct Ht as [<-|[<-|[<-|[]]]];
      eexists; (split; [reflexivity|split; [eexists; reflexivity|reflexivity]]).
Defined.

(** ** Windows and closures *)

(** X3: in a reachable configuration a poll resolves (returns [Ready]) only
    while some driver is inside its checkpoint window, after its [replace]
    of the slot and before its [take]; the closure then runs against the
    world of that driver, which is the world the gate holds and not
    necessarily the world the future was created for. *)
Theorem poll_ready_only_inside_window (Out : Type) (c : Cfg Out) (t : TaskId) (f : @Fut Out)
    (s' : St) (f' : @Fut Out) (v : Out) (evs : list Ev) :
  reachable c -> poll t f (c_st c) = Some (s', f', Ready v, evs) ->
  exists a ph, c_drv c = Some (a, ph) /\ ph <> D_Open /\ ph <> D_Done /\
    gate (c_st c) = Some a /\ In (ERun t a) evs.
Proof.
  intros Hr Hp. destruct (reachable_Inv Out c Hr) as [_ Hg].
  unfold poll in Hp. destruct (gate (c_st c)) as [a|] eqn:Ha.
  - destruct (worlds (c_st c) !! a) as [w|]; [|discriminate].
    destruct (fut_func f) as [cl|]; [|discriminate].
    destruct (cl (w_data w)) as [[d1 cmds] o].
    inversion Hp; subst; clear Hp.
    unfold gate_ok in Hg. destruct (c_drv c) as [[a' ph]|]; [|congruence].
    exists a', ph. destruct ph; try congruence; rewrite Ha in Hg; injection Hg as ->;
      (split; [reflexivity|]); (split; [discriminate|]); (split; [discriminate|]);
      (split; [reflexivity|left; reflexivity]).
  - discriminate.
Qed.

Lemma poll_ready_only_inside_window_witness :
  exists s' f' v evs,
    reachable cfg_wait1 /\
    poll 0 (async_access 1 incr) (c_st cfg_wait1) = Some (s', f', Ready v, evs) /\
    exists a ph, c_drv cfg_wait1 = Some (a, ph) /\ ph <> D_Open /\ ph <> D_Done /\
      gate (c_st cfg_wait1) = Some a /\ In (ERun 0 a) evs.
Proof.
  destruct (poll 0 (async_access 1 incr) (c_st cfg_wait1)) as [[[[s' f'] r] evs]|] eqn:E;
    [|vm_compute in E; discriminate].
  destruct r as [v|]; [|vm_compute in E; discriminate].
  exists s', f', v, evs. split; [exact cfg_wait1_reachable|]. split; [reflexivity|].
  exact (poll_ready_only_inside_window Z cfg_wait1 0 _ _ _ _ _ cfg_wait1_reachable E).
Defined.

(** X4: in a reachable configuration where no checkpoint has opened the
    gate (no driver is running, or it has not yet replaced the slot), every
    poll parks: it registers the task under its future's world, returns
    [Pending], keeps the future and touches no world. *)
Theorem poll_outside_window_parks (Out : Type) (c : Cfg Out) (t : TaskId) (f : @Fut Out) :
  reachable c -> (driver_idle (c_drv c) \/ exists a, c_drv c = Some (a, D_Open)) ->
  exists s', poll t f (c_st c) = Some (s', f, Pending, [ERegister t (fut_world f)]) /\
    worlds s' = worlds (c_st c).
Proof.
  intros Hr Hd. destruct (reachable_Inv Out c Hr) as [_ Hg].
  assert (Hg0 : gate (c_st c) = None).
  { unfold gate_ok in Hg. destruct Hd as [Hd|(a & Hd)].
    - destruct (c_drv c) as [[a []]|]; simpl in Hd; try contradiction; exact Hg.
    - rewrite Hd in Hg. exact Hg. }
  unfold poll. rewrite Hg0. eexists. split; reflexivity.
Qed.

Lemma poll_outside_window_parks_witness :
  reachable cfg_open1 /\
  exists s', poll 1 (async_access 1 incr) (c_st cfg_open1) =
      Some (s', async_access 1 incr, Pending, [ERegister 1 1]) /\
    worlds s' = worlds (c_st cfg_open1).
Proof.
  split; [exact cfg_open1_reachable|].
  apply (poll_outside_window_parks Z cfg_open1 1 (async_access 1 incr) cfg_open1_reachable).
  right. exists 1. reflexivity.
Defined.

(** X5: no ticket outlives its checkpoint: in a reachable configuration the
    [AsyncEcsCounter] of a world is empty unless the driver of that world is
    in its wake loop or in [wg.wait()]. *)
Theorem tickets_empty_outside_wait (Out : Type) (c : Cfg Out) (b : WorldId) :
  reachable c -> (forall ws n, c_drv c <> Some (b, D_Wake ws n)) ->
  c_drv c <> Some (b, D_Wait) -> tickets_of (c_st c) b = 0.
Proof.
  intros Hr Hw Hn. destruct (reachable_Inv Out c Hr) as [Ht _]. unfold tickets_of.
  destruct (worlds (c_st c) !! b) as [w|] eqn:E; [|reflexivity].
  destruct (Ht b w E) as [H|[(ws & n & Hd & _)|Hd]]; [exact H| |].
  - exfalso. exact (Hw ws n Hd).
  - exfalso. exact (Hn Hd).
Qed.

Lemma tickets_empty_outside_wait_witness :
  reachable cfg_open1 /\ tickets_of (c_st cfg_open1) 1 = 0.
Proof.
  split; [exact cfg_open1_reachable|].
  apply (tickets_empty_outside_wait Z cfg_open1 1 cfg_open1_reachable);
    intros; discriminate.
Defined.

(** ** Isolation *)

(** X6: a step of the driver of world [a] never changes any world's data,
    and leaves the waiter entry and the world record of every other world
    as they were. *)
Theorem driver_step_touches_only_its_world (a : WorldId) (ph ph' : DPhase) (s s' : St)
    (evs : list Ev) :
  driver_step a ph s = Some (ph', s', evs) ->
  (forall b, b <> a -> waker_list s' !! b = waker_list s !! b /\ worlds s' !! b = worlds s !! b) /\
  (forall b, w_data <$> worlds s' !! b = w_data <$> worlds s !! b).
Proof.
  intros H. destruct (driver_step_frame a ph ph' s s' evs H) as (H1 & H2 & _).
  split; [exact H1|exact H2].
Qed.

Lemma driver_step_touches_only_its_world_witness :
  exists ph' s' evs, driver_step 1 (D_Reset [0]) (c_st cfg_open1) = Some (ph', s', evs) /\
    (forall b, b <> 1 -> waker_list s' !! b = waker_list (c_st cfg_open1) !! b /\
                         worlds s' !! b = worlds (c_st cfg_open1) !! b) /\
    (forall b, w_data <$> worlds s' !! b = w_data <$> worlds (c_st cfg_open1) !! b).
Proof.
  destruct (driver_step 1 (D_Reset [0]) (c_st cfg_open1)) as [[[ph' s'] evs]|] eqn:E;
    [|vm_compute in E; discriminate].
  exists ph', s', evs. split; [reflexivity|].
  exact (driver_step_touches_only_its_world 1 _ _ _ _ _ E).
Defined.

(** X7: along any run, the data of a world changes only if some closure
    runs on that world: neither the driver nor a parked poll nor a closure
    run on another world modifies it. *)
Theorem world_data_changes_only_by_closures (Out : Type) (c c' : Cfg Out) (tr : list Ev)
    (b : WorldId) :
  exec c tr c' -> (forall t, ~ In (ERun t b) tr) ->
  w_data <$> worlds (c_st c') !! b = w_data <$> worlds (c_st c) !! b.
Proof.
  induction 1 as [c|c1 e1 c2 e2 c3 Hs He IH]; intros Hn; [reflexivity|].
  rewrite IH by (intros t Hin; apply (Hn t); apply in_or_app; right; exact Hin).
  apply (cstep_world_data Out c1 c2 e1 b Hs).
  intros t Hin. apply (Hn t). apply in_or_app. left. exact Hin.
Qed.

Lemma world_data_changes_only_by_closures_witness :
  exists tr (c' : Cfg Z),
    exec cfg_open1 tr c' /\ In (ERun 0 1) tr /\ (forall t, ~ In (ERun t 2) tr) /\
    w_data <$> worlds (c_st c') !! 2 = w_data <$> worlds (c_st cfg_open1) !! 2.
Proof.
  destruct (run_script [A_Drv; A_Drv; A_Drv; A_Drv; A_Drv; A_Poll 0; A_Drv; A_Drv] cfg_open1)
    as [[tr c']|] eqn:E; [|vm_compute in E; discriminate].
  assert (Htr : tr = [EOpen 1; EDrain 1 (Some [0]); EReset 1 1; EWake 0; EWaitBegin 1 1;
                      ERun 0 1; EApply 0 1; EPop 0 1; EWaitDone 1; EClose 1])
    by (vm_compute in E; injection E as Ht _; symmetry; exact Ht).
  apply run_script_exec in E. exists tr, c'.
  assert (Hn : forall t, ~ In (ERun t 2) tr)
    by (rewrite Htr; intros t Hin; simpl in Hin; intuition discriminate).
  split; [exact E|]. split; [rewrite Htr; simpl; tauto|]. split; [exact Hn|].
  exact (world_data_changes_only_by_closures Z _ _ _ 2 E Hn).
Defined.

(** ** Closures run once *)

(** X11: the closure of a future is called at most once along any run
    ([take().unwrap()] empties its slot), and never if it had already been
    called before the run started. *)
Theorem closure_runs_at_most_once (Out : Type) (c c' : Cfg Out) (tr : list Ev) (t : TaskId) :
  exec c tr c' ->
  runs_by t tr <= 1 /\
  (forall f, c_futs c !! t = Some f -> fut_func f = None -> runs_by t tr = 0).
Proof.
  intros He. pose proof (exec_run_budget Out t c c' tr He) as H.
  unfold task_budget in H. split.
  - destruct (c_futs c !! t) as [f|]; [destruct (fut_func f)|]; lia.
  - intros f Hf Hn. rewrite Hf, Hn in H. lia.
Qed.

Lemma closure_runs_at_most_once_witness :
  exists tr (c' : Cfg Z), exec cfg_open1 tr c' /\
    runs_by 0 tr <= 1 /\
    (forall f, c_futs cfg_open1 !! 0 = Some f -> fut_func f = None -> runs_by 0 tr = 0).
Proof.
  destruct (run_script [A_Drv; A_Drv; A_Drv; A_Drv; A_Drv; A_Poll 0; A_Drv; A_Drv] cfg_open1)
    as [[tr c']|] eqn:E; [|vm_compute in E; discriminate].
  apply run_script_exec in E. exists tr, c'. split; [exact E|].
  exact (closure_runs_at_most_once Z _ _ _ 0 E).
Defined.

(** ** A checkpoint completes *)

(** X9: a checkpoint of world [a] whose drained list [l] consists of
    distinct tasks with live futures completes: after the driver opens the
    gate, drains [l], refills the counter, wakes every task and enters
    [wg.wait()], one poll of each task runs its closure and pops a ticket,
    and the driver then returns from the wait, closes the gate and
    finishes, with [a]'s registry entry removed. *)
Theorem checkpoint_completes_when_waiters_polled (Out : Type) (c : Cfg Out) (a : WorldId)
    (l : list TaskId) (w : World) :
  c_drv c = Some (a, D_Open) -> waker_list (c_st c) !! a = Some l -> l <> [] -> NoDup l ->
  worlds (c_st c) !! a = Some w ->
  (forall t, In t l -> exists f, c_futs c !! t = Some f /\ is_Some (fut_func f)) ->
  exists tr c',
    run_script ([A_Drv; A_Drv; A_Drv] ++ repeat A_Drv (length l) ++ [A_Drv] ++
                map A_Poll l ++ [A_Drv; A_Drv]) c = Some (tr, c') /\
    c_drv c' = Some (a, D_Done) /\ gate (c_st c') = None /\
    (forall t, In t l -> In (ERun t a) tr) /\ waker_list (c_st c') !! a = None.
Proof.
  destruct c as [s d fs]. cbn [c_drv c_st c_futs].
  intros Hd Hl Hne Hnd Hw Hlive. subst d.
  set (s3 := set_world a (mkWorld (w_data w) (length l))
               (set_waker_list (delete a (waker_list s)) (set_gate (Some a) s))).
  assert (H3 : run_script [A_Drv; A_Drv; A_Drv] (mkCfg s (Some (a, D_Open)) fs) =
               Some ([EOpen a] ++ ([EDrain a (Some l)] ++ ([EReset a (length l)] ++ [])),
                     mkCfg s3 (Some (a, D_Wake l (length l))) fs)).
  { cbn [run_script step_act c_drv c_st c_futs driver_step].
    st_simpl. rewrite Hl. cbn [driver_step worlds c_drv c_st c_futs]. rewrite Hw. reflexivity. }
  assert (Hpos : (0 <? length l) = true).
  { apply Nat.ltb_lt. destruct l; [contradiction|simpl; lia]. }
  assert (H4 : run_script [A_Drv] (mkCfg s3 (Some (a, D_Wake [] (length l))) fs) =
               Some ([EWaitBegin a (tickets_of s3 a)] ++ [], mkCfg s3 (Some (a, D_Wait)) fs)).
  { cbn [run_script step_act c_drv c_st c_futs driver_step]. rewrite Hpos. reflexivity. }
  assert (Hg3 : gate s3 = Some a) by reflexivity.
  assert (Hw3 : worlds s3 !! a = Some (mkWorld (w_data w) (length l))).
  { unfold s3. st_simpl. apply lookup_insert_eq. }
  destruct (run_polls_window Out l a (Some (a, D_Wait)) s3 fs (mkWorld (w_data w) (length l))
              Hg3 Hw3 (le_n _) Hnd Hlive)
    as (tr & s' & fs' & w' & Hrun & Hg' & Hw' & Ht' & Hl' & Hin').
  cbn [w_tickets] in Ht'. rewrite Nat.sub_diag in Ht'.
  assert (H5 : run_script [A_Drv; A_Drv] (mkCfg s' (Some (a, D_Wait)) fs') =
               Some ([EWaitDone a] ++ ([EClose a] ++ []),
                     mkCfg (set_gate None s') (Some (a, D_Done)) fs')).
  { cbn [run_script step_act c_drv c_st c_futs driver_step]. rewrite Hw', Ht'.
    cbn [Nat.eqb]. cbn [run_script step_act c_drv c_st c_futs driver_step].
    rewrite Hg'. reflexivity. }
  rewrite run_script_app, H3, run_script_app, run_wakes, run_script_app, H4,
    run_script_app, Hrun, H5.
  eexists _, _. split; [reflexivity|]. cbn [c_drv c_st].
  split; [reflexivity|]. split; [reflexivity|]. split.
  - intros t Ht. apply in_or_app. right. apply in_or_app. right.
    apply in_or_app. right. apply in_or_app. left. apply Hin', Ht.
  - st_simpl. rewrite Hl'. unfold s3. st_simpl. apply lookup_delete_eq.
Qed.

Lemma checkpoint_completes_when_waiters_polled_witness :
  exists tr c',
    run_script ([A_Drv; A_Drv; A_Drv] ++ repeat A_Drv (length [0]) ++ [A_Drv] ++
                map A_Poll [0] ++ [A_Drv; A_Drv]) cfg_open1 = Some (tr, c') /\
    c_drv c' = Some (1, D_Done) /\ gate (c_st c') = None /\
    (forall t, In t [0] -> In (ERun t 1) tr) /\ waker_list (c_st c') !! 1 = None.
Proof.
  apply (checkpoint_completes_when_waiters_polled Z cfg_open1 1 [0] w0).
  - reflexivity.
  - vm_compute. reflexivity.
  - discriminate.
  - constructor; [intros Hin; inversion Hin|constructor].
  - vm_compute. reflexivity.
  - intros t [<-|[]]. eexists. split; [reflexivity|]. eexists. reflexivity.
Defined.
